(** * Kalman filter for the damped oscillator (main.py)

    A shallow embedding of [kalman-filter-presentation/main.py]: the NumPy
    array operations the script uses, the dynamics model, the trajectory
    simulator, the measurement generator, the Kalman loop, the lists
    behind the figures and the RMSE diagnostic, followed by the properties
    of the design document.

    Numbers: the script computes in IEEE doubles.  The embedding in
    [Main] replaces them by exact rationals ([Qc], canonical fractions, so
    that equality is Leibniz equality and every definition evaluates):
    its statements are statements about the script's arithmetic read
    exactly.  Where rounding decides a property, [Double] replays the
    Kalman loop in binary64 and the statement says which arithmetic it is
    about.  [np.sqrt] and the samplers of [np.random] are library code
    outside the script and are taken as parameters; of [matplotlib] only
    the size check of [plt.scatter] is kept. *)

From Stdlib Require Import QArith Qcanon ZArith List Lia Lqa Bool PeanoNat.
From Stdlib Require PrimFloat FloatOps SpecFloat.
Import ListNotations.

Local Open Scope Qc_scope.

(** ** Scalars *)

Abbreviation scalar := Qc.

Definition qc (n : Z) (d : positive) : scalar := Q2Qc (n # d).

Definition is_zero (x : scalar) : bool :=
  if Qc_eq_dec x 0 then true else false.

(** ** Exceptions and results *)

Inductive exn : Type :=
| ValueError      (* shape mismatch in a NumPy operation *)
| LinAlgError     (* np.linalg: not square, or singular matrix *)
| IndexError.     (* list or array index out of range *)

Inductive res (A : Type) : Type :=
| Ok (a : A)
| Raise (e : exn).
Arguments Ok {A} a.
Arguments Raise {A} e.

Definition rbind {A B} (r : res A) (k : A -> res B) : res B :=
  match r with
  | Ok a => k a
  | Raise e => Raise e
  end.

Notation "x <- r ;; k" := (rbind r (fun x => k))
  (at level 61, r at next level, right associativity).
Notation "r ;;> k" := (rbind r (fun _ => k))
  (at level 61, right associativity).

Fixpoint sequence {A} (l : list (res A)) : res (list A) :=
  match l with
  | [] => Ok []
  | r :: rs => a <- r ;; l' <- sequence rs ;; Ok (a :: l')
  end.

(** ** NumPy arrays of dimension 0, 1 and 2 *)

Inductive ndarray : Type :=
| Arr0 (x : scalar)
| Arr1 (v : list scalar)
| Arr2 (m : list (list scalar)).   (* row-major *)

Definition ndim (a : ndarray) : nat :=
  match a with Arr0 _ => 0 | Arr1 _ => 1 | Arr2 _ => 2 end.

Definition ncols (m : list (list scalar)) : nat := length (hd [] m).

Definition shape (a : ndarray) : list nat :=
  match a with
  | Arr0 _ => []
  | Arr1 v => [length v]
  | Arr2 m => [length m; ncols m]
  end.

Fixpoint map2 {A B C} (f : A -> B -> C) (u : list A) (v : list B) : list C :=
  match u, v with
  | a :: u', b :: v' => f a b :: map2 f u' v'
  | _, _ => []
  end.

(** [a.T]: arrays of dimension 0 and 1 are unchanged. *)
Definition transpose_rows (m : list (list scalar)) : list (list scalar) :=
  map (fun j => map (fun r => nth j r 0) m) (seq 0 (ncols m)).

Definition transpose (a : ndarray) : ndarray :=
  match a with
  | Arr2 m => Arr2 (transpose_rows m)
  | _ => a
  end.

(** *** Elementwise operations with broadcasting *)

Definition as2d (a : ndarray) : list (list scalar) :=
  match a with
  | Arr0 x => [[x]]
  | Arr1 v => [v]
  | Arr2 m => m
  end.

Definition of2d (d : nat) (m : list (list scalar)) : ndarray :=
  match d with
  | O => Arr0 (hd 0 (hd [] m))
  | S O => Arr1 (hd [] m)
  | _ => Arr2 m
  end.

Definition bcast_row (f : scalar -> scalar -> scalar) (u v : list scalar)
  : res (list scalar) :=
  if Nat.eqb (length u) (length v) then Ok (map2 f u v)
  else match u, v with
       | [x], _ => Ok (map (f x) v)
       | _, [y] => Ok (map (fun a => f a y) u)
       | _, _ => Raise ValueError
       end.

Definition bcast_rows (f : scalar -> scalar -> scalar)
  (a b : list (list scalar)) : res (list (list scalar)) :=
  if Nat.eqb (length a) (length b) then sequence (map2 (bcast_row f) a b)
  else match a, b with
       | [r], _ => sequence (map (bcast_row f r) b)
       | _, [s] => sequence (map (fun r => bcast_row f r s) a)
       | _, _ => Raise ValueError
       end.

Definition broadcast (f : scalar -> scalar -> scalar) (a b : ndarray)
  : res ndarray :=
  m <- bcast_rows f (as2d a) (as2d b) ;;
  Ok (of2d (Nat.max (ndim a) (ndim b)) m).

Definition add : ndarray -> ndarray -> res ndarray := broadcast Qcplus.
Definition sub : ndarray -> ndarray -> res ndarray := broadcast Qcminus.

Definition amap (f : scalar -> scalar) (a : ndarray) : ndarray :=
  match a with
  | Arr0 x => Arr0 (f x)
  | Arr1 v => Arr1 (map f v)
  | Arr2 m => Arr2 (map (map f) m)
  end.

(** [c * a] for a Python float [c]. *)
Definition scale (c : scalar) (a : ndarray) : ndarray := amap (Qcmult c) a.

(** [a ** 2]. *)
Definition square (a : ndarray) : ndarray := amap (fun x => x * x) a.

(** *** Matrix product [a @ b] *)

Definition dot (u v : list scalar) : scalar :=
  fold_right Qcplus 0 (map2 Qcmult u v).

Definition matvec (m : list (list scalar)) (v : list scalar) : list scalar :=
  map (fun r => dot r v) m.

Definition matmat (a b : list (list scalar)) : list (list scalar) :=
  map (fun r => map (dot r) (transpose_rows b)) a.

Definition matmul (a b : ndarray) : res ndarray :=
  match a, b with
  | Arr0 _, _ | _, Arr0 _ => Raise ValueError
  | Arr1 u, Arr1 v =>
      if Nat.eqb (length u) (length v) then Ok (Arr0 (dot u v))
      else Raise ValueError
  | Arr2 m, Arr1 v =>
      if Nat.eqb (ncols m) (length v) then Ok (Arr1 (matvec m v))
      else Raise ValueError
  | Arr1 u, Arr2 m =>
      if Nat.eqb (length u) (length m)
      then Ok (Arr1 (map (dot u) (transpose_rows m)))
      else Raise ValueError
  | Arr2 m1, Arr2 m2 =>
      if Nat.eqb (ncols m1) (length m2) then Ok (Arr2 (matmat m1 m2))
      else Raise ValueError
  end.

(** *** Indexing [a[i]] *)

Definition getitem (a : ndarray) (i : nat) : res ndarray :=
  match a with
  | Arr0 _ => Raise IndexError
  | Arr1 v => match nth_error v i with
              | Some x => Ok (Arr0 x)
              | None => Raise IndexError
              end
  | Arr2 m => match nth_error m i with
              | Some r => Ok (Arr1 r)
              | None => Raise IndexError
              end
  end.

Definition identity (n : nat) : ndarray :=
  Arr2 (map (fun i => map (fun j => if Nat.eqb i j then 1 else 0) (seq 0 n))
            (seq 0 n)).

(** *** [np.linalg.solve]

    LAPACK's [gesv] read exactly: the unique solution of [a x = b] when [a]
    is square and non-singular (computed here by Cramer's rule), and
    [LinAlgError] when [a] is not a square matrix or is singular. *)

Fixpoint drop_nth {A} (j : nat) (l : list A) : list A :=
  match j, l with
  | _, [] => []
  | O, _ :: l' => l'
  | S j', x :: l' => x :: drop_nth j' l'
  end.

Fixpoint set_nth {A} (j : nat) (y : A) (l : list A) : list A :=
  match j, l with
  | _, [] => []
  | O, _ :: l' => y :: l'
  | S j', x :: l' => x :: set_nth j' y l'
  end.

Fixpoint laplace (det' : list (list scalar) -> scalar)
  (rest : list (list scalar)) (j : nat) (pos : bool) (r : list scalar)
  : scalar :=
  match r with
  | [] => 0
  | x :: r' =>
      (if pos then x else - x) * det' (map (drop_nth j) rest)
      + laplace det' rest (S j) (negb pos) r'
  end.

Fixpoint det_n (n : nat) (m : list (list scalar)) : scalar :=
  match n, m with
  | S n', r :: rest => laplace (det_n n') rest 0 true r
  | _, _ => 1
  end.

Definition det (m : list (list scalar)) : scalar := det_n (length m) m.

Definition set_col (j : nat) (col : list scalar) (m : list (list scalar))
  : list (list scalar) :=
  map2 (fun r x => set_nth j x r) m col.

Definition cramer (a : list (list scalar)) (col : list scalar)
  : list scalar :=
  map (fun j => det (set_col j col a) / det a) (seq 0 (length a)).

Definition is_square (m : list (list scalar)) : bool :=
  forallb (fun r => Nat.eqb (length r) (length m)) m.

Definition np_linalg_solve (a b : ndarray) : res ndarray :=
  match a with
  | Arr2 m =>
      if negb (is_square m) then Raise LinAlgError
      else match b with
           | Arr0 _ => Raise ValueError
           | Arr1 v =>
               if negb (Nat.eqb (length v) (length m)) then Raise ValueError
               else if is_zero (det m) then Raise LinAlgError
               else Ok (Arr1 (cramer m v))
           | Arr2 bm =>
               if negb (Nat.eqb (length bm) (length m)) then Raise ValueError
               else if is_zero (det m) then Raise LinAlgError
               else Ok (Arr2 (transpose_rows
                                (map (cramer m) (transpose_rows bm))))
           end
  | _ => Raise LinAlgError
  end.

(** ** Python lists *)

(** [l[-1]] *)
Definition py_last {A} (l : list A) : res A :=
  match rev l with
  | x :: _ => Ok x
  | [] => Raise IndexError
  end.

(** [l[k]] for [k >= 0] *)
Definition py_index {A} (l : list A) (k : nat) : res A :=
  match nth_error l k with
  | Some x => Ok x
  | None => Raise IndexError
  end.

(** [l[:e]]; a negative [e] counts from the end. *)
Definition slice_to {A} (l : list A) (e : Z) : list A :=
  if (0 <=? e)%Z then firstn (Z.to_nat e) l
  else firstn (length l - Z.to_nat (- e)) l.

(** [l[1:]] *)
Definition slice_from_1 {A} (l : list A) : list A := skipn 1 l.

(** [range(n)]: empty for [n <= 0]. *)
Definition range (n : Z) : list nat := seq 0 (Z.to_nat n).

(** ** The script *)

Module Main.

(** The global parameters of lines 9-14.  [R] is the number wrapped by
    [np.array(..)], a 0-dimensional array. *)
Record config : Type := {
  T : Z;          (* number of time steps *)
  dt : scalar;    (* time step *)
  w : scalar;     (* omega *)
  xi : scalar;    (* xi *)
  H : ndarray;    (* measurement matrix *)
  R : scalar      (* variance of measurement error *)
}.

(** Lines 9-14 as written. *)
Definition reference : config := {|
  T := 25000;
  dt := qc 1 1000;
  w := 1;
  xi := qc 1 1000;
  H := Arr2 [[1; 0]];
  R := qc 5 1
|}.

Definition I : ndarray := identity 2.

(** Line 18: [np.array([[0, 1], [-w**2, -2 * xi * w]])] *)
Definition A (c : config) : ndarray :=
  Arr2 [[0; 1]; [- (w c * w c); qc (-2) 1 * xi c * w c]].

(** Line 19: [I + dt * A] *)
Definition M (c : config) : res ndarray := add I (scale (dt c) (A c)).

(** Line 24 *)
Definition n : Z := 30.

(** Lines 26-28: [true_xs = [x0]] and the loop body
    [true_xs += [M @ true_xs[-1]]], run [iters] times. *)
Fixpoint true_xs_loop (iters : nat) (m : ndarray) (true_xs : list ndarray)
  : res (list ndarray) :=
  match iters with
  | O => Ok true_xs
  | S i =>
      x_last <- py_last true_xs ;;
      x <- matmul m x_last ;;
      true_xs_loop i m (true_xs ++ [x])
  end.

(** The list [true_xs] once line 54 has cut it: lines 26-28 followed by
    [true_xs[:T+1]].  (The first figure, which the script draws between
    the two, is part of [main].) *)
Definition true_xs (c : config) (m : ndarray) (x0 : ndarray)
  : res (list ndarray) :=
  xs <- true_xs_loop (Z.to_nat (n * T c)) m [x0] ;;
  Ok (slice_to xs (T c + 1)).

(** *** The Kalman loop, lines 77-96

    The three lists are mutated in place; an exception leaves them as they
    are at that moment.  [prog] threads the lists and the exception. *)

Record kstate : Type := {
  kalman_mus : list ndarray;
  kalman_Ps : list ndarray;
  kalman_gains : list ndarray
}.

Definition prog (X : Type) : Type := kstate -> res X * kstate.

Definition ret {X} (x : X) : prog X := fun s => (Ok x, s).

Definition bind {X Y} (p : prog X) (k : X -> prog Y) : prog Y :=
  fun s => match p s with
           | (Ok x, s') => k x s'
           | (Raise e, s') => (Raise e, s')
           end.

Definition lift {X} (r : res X) : prog X := fun s => (r, s).

Definition get {X} (f : kstate -> X) : prog X := fun s => (Ok (f s), s).

Definition put (f : kstate -> kstate) : prog unit := fun s => (Ok tt, f s).

Notation "x <~ p ;; k" := (bind p (fun x => k))
  (at level 61, p at next level, right associativity).
Notation "p ;;; k" := (bind p (fun _ => k))
  (at level 61, right associativity).

Definition append_gain (K : ndarray) : prog unit :=
  put (fun s => {| kalman_mus := kalman_mus s;
                   kalman_Ps := kalman_Ps s;
                   kalman_gains := kalman_gains s ++ [K] |}).

Definition append_mu (mu : ndarray) : prog unit :=
  put (fun s => {| kalman_mus := kalman_mus s ++ [mu];
                   kalman_Ps := kalman_Ps s;
                   kalman_gains := kalman_gains s |}).

Definition append_P (P : ndarray) : prog unit :=
  put (fun s => {| kalman_mus := kalman_mus s;
                   kalman_Ps := kalman_Ps s ++ [P];
                   kalman_gains := kalman_gains s |}).

(** Lines 77-79 *)
Definition kalman_init : kstate := {|
  kalman_mus := [transpose (Arr2 [[0; 0]])];
  kalman_Ps := [I];
  kalman_gains := []
|}.

(** Lines 82-96, the body of [for k in range(T)]. *)
Definition kalman_body (c : config) (m : ndarray) (synth_ys : list ndarray)
  (k : nat) : prog unit :=
  mu_last <~ (mus <~ get kalman_mus ;; lift (py_last mus)) ;;
  P_last <~ (Ps <~ get kalman_Ps ;; lift (py_last Ps)) ;;
  mu_f <~ lift (matmul m mu_last) ;;
  P_f <~ lift (mp <- matmul m P_last ;; matmul mp (transpose m)) ;;
  K <~ lift (hp <- matmul (H c) P_f ;;
             hph <- matmul hp (transpose (H c)) ;;
             s <- add (transpose (Arr0 (R c))) (transpose hph) ;;
             b <- matmul (H c) (transpose P_f) ;;
             x <- np_linalg_solve s b ;;
             Ok (transpose x)) ;;
  append_gain K ;;;
  new_mu <~ lift (hm <- matmul (H c) mu_f ;;
                  y <- py_index synth_ys k ;;
                  d <- sub hm y ;;
                  kd <- matmul K d ;;
                  sub mu_f kd) ;;
  new_P <~ lift (hp <- matmul (H c) P_f ;;
                 khp <- matmul K hp ;;
                 sub P_f khp) ;;
  append_mu new_mu ;;;
  append_P new_P.

Fixpoint for_each (ks : list nat) (body : nat -> prog unit) : prog unit :=
  match ks with
  | [] => ret tt
  | k :: ks' => body k ;;; for_each ks' body
  end.

(** Lines 80-96 *)
Definition kalman_loop (c : config) (m : ndarray) (synth_ys : list ndarray)
  : prog unit :=
  for_each (range (T c)) (kalman_body c m synth_ys).

(** *** The lists behind the figures

    Lines 25, 29-30, 98-99, 128-129 and 155 build the lists handed to
    [plt.scatter]. *)

(** A Python [int] used as a float. *)
Definition of_nat (k : nat) : scalar := Q2Qc (Z.of_nat k # 1).

(** Line 25: [[0 + k * dt for k in range(n*T+1)]] *)
Definition times (c : config) : list scalar :=
  map (fun k => 0 + of_nat k * dt c) (range (n * T c + 1)).

(** [[a[i] for a in l]] *)
Definition components (i : nat) (l : list ndarray) : res (list ndarray) :=
  sequence (map (fun a => getitem a i) l).

(** [np.trace] of a 2-dimensional array: the sum of the diagonal. *)
Fixpoint diagonal (i : nat) (m : list (list scalar)) : list scalar :=
  match m with
  | [] => []
  | r :: m' =>
      match nth_error r i with
      | Some x => x :: diagonal (S i) m'
      | None => []
      end
  end.

Definition np_trace (a : ndarray) : res scalar :=
  match a with
  | Arr2 m => Ok (fold_right Qcplus 0 (diagonal 0 m))
  | _ => Raise ValueError
  end.

(** The number of scalars in an array, and in a list of arrays of one
    shape once NumPy has stacked it. *)
Definition size (a : ndarray) : nat :=
  match a with
  | Arr0 _ => 1
  | Arr1 v => length v
  | Arr2 m => length (concat m)
  end.

Definition np_size (l : list ndarray) : nat := list_sum (map size l).

(** [plt.scatter(x, y)], by the sizes of its two arguments: [matplotlib]
    flattens both and raises [ValueError] ("x and y must be the same
    size") when the sizes differ.  Drawing has no effect on the values of
    the script. *)
Definition plt_scatter (x_size y_size : nat) : res unit :=
  if Nat.eqb x_size y_size then Ok tt else Raise ValueError.

(** *** Library code outside the script *)

Section Library.

(** The state of NumPy's global generator, and the two samplers and
    [np.sqrt] as the script calls them. *)
Variable rng : Type.
Variable np_random_multivariate_normal :
  ndarray -> ndarray -> rng -> ndarray * rng.
Variable np_random_normal : scalar -> scalar -> rng -> scalar * rng.
Variable np_sqrt : scalar -> scalar.

(** Line 16 *)
Definition x0 (g : rng) : ndarray * rng :=
  np_random_multivariate_normal (Arr1 [0; 0]) I g.

(** Line 60: [[H @ x + np.random.normal(0, np.sqrt(R)) for x in true_xs]] *)
Fixpoint synth_ys (c : config) (xs : list ndarray) (g : rng)
  : res (list ndarray) * rng :=
  match xs with
  | [] => (Ok [], g)
  | x :: xs' =>
      match matmul (H c) x with
      | Raise e => (Raise e, g)
      | Ok hx =>
          let (v, g1) := np_random_normal 0 (np_sqrt (R c)) g in
          match add hx (Arr0 v) with
          | Raise e => (Raise e, g1)
          | Ok y =>
              let (r, g2) := synth_ys c xs' g1 in
              (ys <- r ;; Ok (y :: ys), g2)
          end
      end
  end.

(** Lines 149-151, one entry of [RMSEs]. *)
Definition RMSE_at (xs mus : list ndarray) (k : nat) : res ndarray :=
  xk <- py_index xs k ;;
  x_0 <- getitem xk 0 ;;
  mk <- py_index mus k ;;
  m_0 <- getitem mk 0 ;;
  d0 <- sub x_0 m_0 ;;
  xk' <- py_index xs k ;;
  x_1 <- getitem xk' 1 ;;
  mk' <- py_index mus k ;;
  m_1 <- getitem mk' 1 ;;
  d1 <- sub x_1 m_1 ;;
  s <- add (square d0) (square d1) ;;
  Ok (amap np_sqrt (scale (qc 1 2) s)).

Definition RMSEs (c : config) (xs mus : list ndarray)
  : res (list ndarray) :=
  sequence (map (RMSE_at xs mus) (range (T c + 1))).

(** Line 155: [[np.sqrt(0.5 * np.trace(P)) for P in kalman_Ps]] *)
Definition cov_traces (Ps : list ndarray) : res (list scalar) :=
  sequence (map (fun P => t <- np_trace P ;; Ok (np_sqrt (qc 1 2 * t))) Ps).

(** What a run leaves behind, next to the lists that only feed the
    figures. *)
Record results : Type := {
  r_true_xs : list ndarray;
  r_synth_ys : list ndarray;
  r_kalman : kstate;
  r_RMSEs : list ndarray
}.

(** The script from top to bottom.  Of the figures (lines 32-49, 61-71,
    102-145, 153-162) the calls of [plt.scatter] are kept, each by the
    sizes of its two arguments.  The trajectory loop is [true_xs_loop]
    and the cut of line 54 follows the first figure, as in the script. *)
Definition main (c : config) (g : rng) : res results :=
  let (x, g1) := x0 g in                                       (* 16 *)
  m <- M c ;;                                                  (* 19 *)
  let times := times c in                                      (* 25 *)
  true_xs <- true_xs_loop (Z.to_nat (n * T c)) m [x] ;;        (* 26-28 *)
  true_zs <- components 0 true_xs ;;                           (* 29 *)
  true_zts <- components 1 true_xs ;;                          (* 30 *)
  plt_scatter (length times) (np_size true_zs) ;;>             (* 37 *)
  plt_scatter (length times) (np_size true_zts) ;;>            (* 45 *)
  let times := slice_to times (T c + 1) in                     (* 53 *)
  let true_xs := slice_to true_xs (T c + 1) in                 (* 54 *)
  let true_zs := slice_to true_zs (T c + 1) in                 (* 55 *)
  let true_zts := slice_to true_zts (T c + 1) in               (* 56 *)
  synth_ys <- fst (synth_ys c true_xs g1) ;;                   (* 60 *)
  plt_scatter (length times) (np_size synth_ys) ;;>            (* 62 *)
  plt_scatter (length times) (np_size true_zs) ;;>             (* 63 *)
  match kalman_loop c m synth_ys kalman_init with              (* 77-96 *)
  | (Raise e, _) => Raise e
  | (Ok _, st) =>
      kalman_zs <- components 0 (kalman_mus st) ;;             (* 98 *)
      kalman_zts <- components 1 (kalman_mus st) ;;            (* 99 *)
      plt_scatter (length times) (np_size true_zs) ;;>         (* 104 *)
      plt_scatter (length times) (np_size kalman_zs) ;;>       (* 105 *)
      plt_scatter (length times) (np_size true_zts) ;;>        (* 116 *)
      plt_scatter (length times) (np_size kalman_zts) ;;>      (* 117 *)
      K0s <- components 0 (kalman_gains st) ;;                 (* 128 *)
      K1s <- components 1 (kalman_gains st) ;;                 (* 129 *)
      plt_scatter (length (slice_from_1 times)) (np_size K0s) ;;>
                                                               (* 132 *)
      plt_scatter (length (slice_from_1 times)) (np_size K1s) ;;>
                                                               (* 140 *)
      RMSEs <- RMSEs c true_xs (kalman_mus st) ;;              (* 149-151 *)
      plt_scatter (length times) (np_size RMSEs) ;;>           (* 154 *)
      cov_traces <- cov_traces (kalman_Ps st) ;;               (* 155 *)
      plt_scatter (length times) (length cov_traces) ;;>       (* 156 *)
      Ok {| r_true_xs := true_xs; r_synth_ys := synth_ys; r_kalman := st;
            r_RMSEs := RMSEs |}
  end.

End Library.

End Main.

(** ** A concrete generator for examples

    The generator state is the list of standard normal variates it will
    hand out next (0 once the list is used up). *)

Module Stream.

Definition rng : Type := list scalar.

Definition draw (g : rng) : scalar * rng :=
  match g with
  | [] => (0, [])
  | z :: g' => (z, g')
  end.

(** [loc + scale * z] *)
Definition normal (loc scale : scalar) (g : rng) : scalar * rng :=
  let (z, g') := draw g in (loc + scale * z, g').

(** One variate per component of [mean]; the covariance is taken to be the
    identity, which is what line 16 passes. *)
Definition multivariate_normal (mean cov : ndarray) (g : rng)
  : ndarray * rng :=
  let k := length (hd [] (as2d mean)) in
  (Arr1 (map2 Qcplus (hd [] (as2d mean)) (firstn k (g ++ repeat 0 k))),
   skipn k g).

(** Square root of a fraction whose numerator and denominator are perfect
    squares (rounded down on each side otherwise). *)
Definition sqrt (x : scalar) : scalar :=
  Q2Qc (Z.sqrt (Qnum x) # Pos.sqrt (Qden x)).

Definition x0 := Main.x0 rng multivariate_normal.
Definition synth_ys := Main.synth_ys rng normal sqrt.
Definition main := Main.main rng multivariate_normal normal sqrt.

End Stream.

(** ** The Kalman loop in binary64

    Lines 18-19 and 77-96 once more, at the shapes of the script ([M] and
    every covariance 2x2, the mean and the gain 2x1, [H] 1x2, one number
    per observation), with every operation rounded to the nearest double
    as IEEE 754 prescribes.  A dot product adds its rounded products in
    the order [dot] adds them above, and the solve of the 1x1 system of
    line 89 is one division per entry.  [exact] gives the rational number
    a double stands for, so that the notions stated over the rationals
    apply to the arrays this loop stores. *)

Module Double.

Import PrimFloat.
Local Open Scope float_scope.

Definition matrix : Type := list (list float).

Definition transpose (m : matrix) : matrix :=
  map (fun j => map (fun r => nth j r 0) m) (seq 0 (length (hd [] m))).

Definition dot (u v : list float) : float :=
  fold_right PrimFloat.add 0 (map2 PrimFloat.mul u v).

Definition matmul (a b : matrix) : matrix :=
  map (fun r => map (dot r) (transpose b)) a.

(** An elementwise operation on two arrays of one shape. *)
Definition elementwise (f : float -> float -> float) (a b : matrix)
  : matrix :=
  map2 (map2 f) a b.

Record config : Type := {
  T : Z;
  dt : float;
  w : float;
  xi : float;
  H : matrix;
  R : float
}.

(** Lines 9-14 as written; [0.001] is the double nearest to it. *)
Definition reference : config := {|
  T := 25000;
  dt := 0x1.0624dd2f1a9fcp-10;
  w := 1;
  xi := 0x1.0624dd2f1a9fcp-10;
  H := [[1; 0]];
  R := 5
|}.

Definition I : matrix := [[1; 0]; [0; 1]].

(** Line 18 *)
Definition A (c : config) : matrix :=
  [[0; 1]; [- (w c * w c); (-2) * xi c * w c]].

(** Line 19 *)
Definition M (c : config) : matrix :=
  elementwise PrimFloat.add I (map (map (PrimFloat.mul (dt c))) (A c)).

Record kstate : Type := {
  kalman_mus : list matrix;
  kalman_Ps : list matrix;
  kalman_gains : list matrix
}.

(** Lines 77-79 *)
Definition kalman_init : kstate := {|
  kalman_mus := [[[0]; [0]]];
  kalman_Ps := [I];
  kalman_gains := []
|}.

(** [np.linalg.solve(a, b)] for a 1x1 matrix [a = [[s]]]. *)
Definition np_linalg_solve (s : float) (b : matrix) : res matrix :=
  if PrimFloat.eqb s 0 then Raise LinAlgError
  else Ok (map (map (fun v => v / s)) b).

(** Line 87 *)
Definition forecast_cov (c : config) (P_last : matrix) : matrix :=
  matmul (matmul (M c) P_last) (transpose (M c)).

(** [R.T + (H @ P_f @ H.T).T], the entry of this 1x1 array. *)
Definition innovation_cov (c : config) (P_f : matrix) : float :=
  R c + hd 0 (hd [] (transpose (matmul (matmul (H c) P_f)
                                        (transpose (H c))))).

(** Lines 82-96 *)
Definition kalman_body (c : config) (synth_ys : list float) (k : nat)
  (st : kstate) : res unit * kstate :=
  let mu_last := last (kalman_mus st) [] in
  let P_last := last (kalman_Ps st) [] in
  let mu_f := matmul (M c) mu_last in
  let P_f := forecast_cov c P_last in
  match np_linalg_solve (innovation_cov c P_f)
          (matmul (H c) (transpose P_f)) with
  | Raise e => (Raise e, st)
  | Ok x =>
      let K := transpose x in
      let gains := kalman_gains st ++ [K] in
      match nth_error synth_ys k with
      | None =>
          (Raise IndexError,
           {| kalman_mus := kalman_mus st; kalman_Ps := kalman_Ps st;
              kalman_gains := gains |})
      | Some y =>
          let d := map (map (fun v => v - y)) (matmul (H c) mu_f) in
          let new_mu := elementwise PrimFloat.sub mu_f (matmul K d) in
          let new_P :=
            elementwise PrimFloat.sub P_f (matmul K (matmul (H c) P_f)) in
          (Ok tt,
           {| kalman_mus := kalman_mus st ++ [new_mu];
              kalman_Ps := kalman_Ps st ++ [new_P];
              kalman_gains := gains |})
      end
  end.

Fixpoint for_each (ks : list nat) (body : nat -> kstate -> res unit * kstate)
  (st : kstate) : res unit * kstate :=
  match ks with
  | [] => (Ok tt, st)
  | k :: ks' =>
      match body k st with
      | (Ok _, st') => for_each ks' body st'
      | (Raise e, st') => (Raise e, st')
      end
  end.

(** Lines 80-96 *)
Definition kalman_loop (c : config) (synth_ys : list float)
  : res unit * kstate :=
  for_each (range (T c)) (kalman_body c synth_ys) kalman_init.

(** The rational number a finite double stands for (0 for an infinity or
    a NaN). *)
Definition exact (x : float) : Qc :=
  match FloatOps.Prim2SF x with
  | SpecFloat.S754_finite s m e =>
      let v := (if (0 <=? e)%Z then inject_Z (Zpos m * 2 ^ e)
                else Zpos m # Pos.pow 2 (Z.to_pos (- e)))%Q in
      Q2Qc (if s then Qopp v else v)
  | _ => Q2Qc 0
  end.

Definition exact_matrix (m : matrix) : ndarray := Arr2 (map (map exact) m).

(** The reference run cut to its first two passes. *)
Definition two_passes : config := {|
  T := 2;
  dt := dt reference;
  w := w reference;
  xi := xi reference;
  H := H reference;
  R := R reference
|}.

(** The small scenario of the examples: two steps of size 0.1, with the
    doubles nearest to 0.1. *)
Definition small : config := {|
  T := 2;
  dt := 0x1.999999999999ap-4;
  w := 1;
  xi := 0x1.999999999999ap-4;
  H := [[1; 0]];
  R := 4
|}.

(** A sensor without noise, three steps of size 1/2. *)
Definition noiseless : config := {|
  T := 3;
  dt := 0x1p-1;
  w := 1;
  xi := 0x1p-2;
  H := [[1; 0]];
  R := 0
|}.

(** [k] observations equal to 0. *)
Definition zeros (k : nat) : list float := repeat 0 k.

End Double.

(** ** The transition of the design document, in its words

    Section 4.4 of the design: forecast, innovation covariance, gain and
    correction, written with the same array operations.  [R] is the 0-d
    array of the script. *)

Module Spec.

Definition forecast_mean (M mu : ndarray) : res ndarray := matmul M mu.

Definition forecast_cov (M P : ndarray) : res ndarray :=
  mp <- matmul M P ;; matmul mp (transpose M).

Definition innovation_cov (H R P_f : ndarray) : res ndarray :=
  hp <- matmul H P_f ;;
  hph <- matmul hp (transpose H) ;;
  add R hph.


Definition correct_mean (H mu_f K y : ndarray) : res ndarray :=
  hm <- matmul H mu_f ;;
  d <- sub hm y ;;
  kd <- matmul K d ;;
  sub mu_f kd.

Definition correct_cov (H P_f K : ndarray) : res ndarray :=
  hp <- matmul H P_f ;;
  khp <- matmul K hp ;;
  sub P_f khp.



End Spec.

(** ** Shapes, symmetry and positive semidefiniteness *)

(** [a] is a rectangular array of the given shape. *)
Definition has_shape (a : ndarray) (s : list nat) : bool :=
  match a, s with
  | Arr0 _, [] => true
  | Arr1 v, [k] => Nat.eqb (length v) k
  | Arr2 m, [r; k] =>
      Nat.eqb (length m) r && forallb (fun row => Nat.eqb (length row) k) m
  | _, _ => false
  end.

Definition symmetric (a : ndarray) : Prop := transpose a = a.

(** [v^T a v >= 0] for every vector [v] of matching length. *)
Definition psd (a : ndarray) : Prop :=
  match a with
  | Arr2 m => forall v, length v = length m -> 0 <= dot v (matvec m v)
  | _ => False
  end.

Definition sym_psd (a : ndarray) : Prop := symmetric a /\ psd a.

(** [a] is below [b] in the Loewner order: [b - a] is symmetric positive
    semidefinite. *)
Definition loewner_le (a b : ndarray) : Prop :=
  exists d, sub b a = Ok d /\ sym_psd d.

(** A square matrix is singular when its determinant vanishes. *)
Definition singular (a : ndarray) : Prop :=
  match a with
  | Arr2 m => is_square m = true /\ det m = 0
  | _ => False
  end.

(** ** Notions used in the statements *)

(** The lists after a completed pass. *)
Definition push (st : Main.kstate) (mu P K : ndarray) : Main.kstate :=
  {| Main.kalman_mus := Main.kalman_mus st ++ [mu];
     Main.kalman_Ps := Main.kalman_Ps st ++ [P];
     Main.kalman_gains := Main.kalman_gains st ++ [K] |}.

(** What the solve of line 89 establishes, as the code writes it:
    [K S = (H P_f^T)^T]. *)
Definition gain_as_coded (H P_f S K : ndarray) : Prop :=
  exists b, matmul H (transpose P_f) = Ok b /\ matmul K S = Ok (transpose b).

(** One pass on [(mu, P)] and [y] as lines 86-94 compute it: the
    transition of the design with the gain equation of the code,
    [K S = (H P_f^T)^T] for a non-singular [S], in place of
    [K S = (H P_f)^T]. *)
Definition coded_transition (M H R mu P y mu' P' K : ndarray) : Prop :=
  exists mu_f P_f S,
    Spec.forecast_mean M mu = Ok mu_f /\
    Spec.forecast_cov M P = Ok P_f /\
    Spec.innovation_cov H R P_f = Ok S /\
    ~ singular S /\
    gain_as_coded H P_f S K /\
    Spec.correct_mean H mu_f K y = Ok mu' /\
    Spec.correct_cov H P_f K = Ok P'.

(** [v^T q v] for [v = (x, y)], as [dot] and [matvec] compute it. *)
Definition qf (q00 q01 q10 q11 x y : Qc) : Qc :=
  x * (q00 * x + (q01 * y + 0)) + (y * (q10 * x + (q11 * y + 0)) + 0).

(** One pass through lines 86-94 on [(mu, P)] and [y], as coded. *)
Definition coded_step (c : Main.config) (m mu P y mu' P' K : ndarray)
  : Prop :=
  exists mu_f P_f hp hph S b x,
    matmul m mu = Ok mu_f /\
    Spec.forecast_cov m P = Ok P_f /\
    matmul (Main.H c) P_f = Ok hp /\
    matmul hp (transpose (Main.H c)) = Ok hph /\
    add (Arr0 (Main.R c)) (transpose hph) = Ok S /\
    matmul (Main.H c) (transpose P_f) = Ok b /\
    np_linalg_solve S b = Ok x /\
    K = transpose x /\
    Spec.correct_mean (Main.H c) mu_f K y = Ok mu' /\
    Spec.correct_cov (Main.H c) P_f K = Ok P'.

(** The newest mean is a 2x1 column and the newest covariance is 2x2. *)
Definition shaped (st : Main.kstate) : Prop :=
  exists mu P,
    py_last (Main.kalman_mus st) = Ok mu /\
    has_shape mu [2; 1]%nat = true /\
    py_last (Main.kalman_Ps st) = Ok P /\
    has_shape P [2; 2]%nat = true.

(** Every observation is an array of shape (1,). *)
Definition observations (ys : list ndarray) : Prop :=
  Forall (fun y => has_shape y [1%nat] = true) ys.

(** Every stored mean and every stored gain is a 2x1 column, every stored
    covariance a 2x2 matrix. *)
Definition well_shaped (st : Main.kstate) : Prop :=
  Forall (fun a => has_shape a [2; 1]%nat = true) (Main.kalman_mus st) /\
  Forall (fun a => has_shape a [2; 2]%nat = true) (Main.kalman_Ps st) /\
  Forall (fun a => has_shape a [2; 1]%nat = true) (Main.kalman_gains st).

(** Every stored covariance is a symmetric positive semidefinite 2x2
    matrix. *)
Definition covariances_good (st : Main.kstate) : Prop :=
  Forall (fun P => has_shape P [2; 2]%nat = true /\ sym_psd P)
         (Main.kalman_Ps st).

(** The lists stay aligned along successful passes: entry [k + 1] of the
    means and covariances comes from entry [k] and observation [k], with
    gain [k]. *)
Definition linked (c : Main.config) (m : ndarray) (ys : list ndarray)
  (st : Main.kstate) : Prop :=
  length (Main.kalman_mus st) = S (length (Main.kalman_gains st)) /\
  length (Main.kalman_Ps st) = S (length (Main.kalman_gains st)) /\
  forall k, (k < length (Main.kalman_gains st))%nat ->
    exists mu P y mu' P' K,
      nth_error (Main.kalman_mus st) k = Some mu /\
      nth_error (Main.kalman_Ps st) k = Some P /\
      nth_error ys k = Some y /\
      nth_error (Main.kalman_mus st) (S k) = Some mu' /\
      nth_error (Main.kalman_Ps st) (S k) = Some P' /\
      nth_error (Main.kalman_gains st) k = Some K /\
      coded_step c m mu P y mu' P' K.

(** [M^k v], by repeated matrix-vector product. *)
Definition orbit (rows : list (list Qc)) (v : list Qc) (k : nat) : ndarray :=
  Arr1 (Nat.iter k (matvec rows) v).

(** The value of [M] for a configuration. *)
Definition M_matrix (c : Main.config) : ndarray :=
  Arr2 [[1 + Main.dt c * 0; 0 + Main.dt c * 1];
        [0 + Main.dt c * - (Main.w c * Main.w c);
         1 + Main.dt c * (qc (-2) 1 * Main.xi c * Main.w c)]].

(** A small scenario for examples: two steps of size 1/10. *)
Definition small : Main.config := {|
  Main.T := 2;
  Main.dt := qc 1 10;
  Main.w := 1;
  Main.xi := qc 1 10;
  Main.H := Arr2 [[1; 0]];
  Main.R := qc 4 1
|}.

(** The result of an operation that is known to succeed. *)
Definition value (r : res ndarray) : ndarray :=
  match r with
  | Ok a => a
  | Raise _ => Arr0 0
  end.

(** The reference dynamics observed through the velocity, two steps. *)
Definition velocity_sensor : Main.config := {|
  Main.T := 2;
  Main.dt := qc 1 1000;
  Main.w := 1;
  Main.xi := qc 1 1000;
  Main.H := Arr2 [[0; 1]];
  Main.R := qc 5 1
|}.

(** A degenerate sensor: no noise, no step; the second pass meets a
    singular innovation covariance. *)
Definition degenerate : Main.config := {|
  Main.T := 3;
  Main.dt := 0;
  Main.w := 1;
  Main.xi := qc 1 1000;
  Main.H := Arr2 [[1; 0]];
  Main.R := 0
|}.

Definition completes {X} (r : res X) : bool :=
  match r with
  | Ok _ => true
  | Raise _ => false
  end.

(** The first component of the first true state of a run. *)
Definition first_position (r : res Main.results) : Q :=
  match r with
  | Ok o =>
      match Main.r_true_xs o with
      | Arr1 (z :: _) :: _ => this z
      | _ => 0%Q
      end
  | Raise _ => 0%Q
  end.

(** A configuration with a negative step size. *)
Definition backwards : Main.config := {|
  Main.T := 2;
  Main.dt := qc (-1) 10;
  Main.w := 1;
  Main.xi := qc 1 10;
  Main.H := Arr2 [[1; 0]];
  Main.R := qc 4 1
|}.

(** A configuration with nothing right: negative step size, step count
    and variance, and a measurement row of the wrong length. *)
Definition nonsense : Main.config := {|
  Main.T := -3;
  Main.dt := qc (-1) 10;
  Main.w := 1;
  Main.xi := qc 1 10;
  Main.H := Arr2 [[1; 0; 0]];
  Main.R := qc (-4) 1
|}.

(** A configuration with a negative step size, a negative variance and
    a measurement row of the wrong length. *)
Definition careless : Main.config := {|
  Main.T := 2;
  Main.dt := qc (-1) 10;
  Main.w := 1;
  Main.xi := qc 1 10;
  Main.H := Arr2 [[1; 0; 0]];
  Main.R := qc (-4) 1
|}.


(** Entry [(i, j)] of a 2-dimensional array, as a fraction. *)
Definition entry (i j : nat) (a : ndarray) : Q :=
  match a with
  | Arr2 m => this (nth j (nth i m []) 0)
  | _ => 0%Q
  end.

Section Draws.

Variable rng : Type.
Variable np_random_normal : Qc -> Qc -> rng -> Qc * rng.
Variable np_sqrt : Qc -> Qc.

(** The next [k] values of [np.random.normal(0, np.sqrt(R))]. *)
Fixpoint draws (c : Main.config) (k : nat) (g : rng) : list Qc :=
  match k with
  | O => []
  | S k' =>
      let (v, g1) := np_random_normal 0 (np_sqrt (Main.R c)) g in
      v :: draws c k' g1
  end.

(** [y = H @ x + v] *)
Definition measures (c : Main.config) (x : ndarray) (v : Qc) (y : ndarray)
  : Prop :=
  exists hx, matmul (Main.H c) x = Ok hx /\ add hx (Arr0 v) = Ok y.

(** The generator after [k] further calls of
    [np.random.normal(0, np.sqrt(R))]. *)
Fixpoint advance (c : Main.config) (k : nat) (g : rng) : rng :=
  match k with
  | O => g
  | S k' => advance c k' (snd (np_random_normal 0 (np_sqrt (Main.R c)) g))
  end.

End Draws.

(** ** Basic facts *)

Lemma length_0 {A} (l : list A) : length l = 0%nat -> l = [].
Proof. destruct l; simpl; [reflexivity | discriminate]. Qed.

Lemma length_S {A} (l : list A) k :
  length l = S k -> exists x l', l = x :: l' /\ length l' = k.
Proof.
  destruct l as [|x l']; simpl; [discriminate|].
  intros E. exists x, l'. split; [reflexivity | congruence].
Qed.

Lemma shape_vec1 a : has_shape a [1%nat] = true -> exists y, a = Arr1 [y].
Proof.
  destruct a as [x|v|m]; simpl; try discriminate.
  intros E%Nat.eqb_eq.
  apply length_S in E as (y & l & -> & E). apply length_0 in E as ->.
  now exists y.
Qed.

Lemma shape_vec2 a :
  has_shape a [2%nat] = true -> exists x y, a = Arr1 [x; y].
Proof.
  destruct a as [x|v|m]; simpl; try discriminate.
  intros E%Nat.eqb_eq.
  apply length_S in E as (x & l & -> & E).
  apply length_S in E as (y & l' & -> & E). apply length_0 in E as ->.
  now exists x, y.
Qed.

Lemma shape_mat12 a :
  has_shape a [1%nat; 2%nat] = true -> exists x y, a = Arr2 [[x; y]].
Proof.
  destruct a as [x|v|m]; simpl; try discriminate.
  intros [E F]%andb_true_iff. apply Nat.eqb_eq in E.
  apply length_S in E as (r & l & -> & E). apply length_0 in E as ->.
  simpl in F. apply andb_true_iff in F as [F _]. apply Nat.eqb_eq in F.
  apply length_S in F as (x & l & -> & F).
  apply length_S in F as (y & l' & -> & F). apply length_0 in F as ->.
  now exists x, y.
Qed.

Lemma shape_mat21 a :
  has_shape a [2%nat; 1%nat] = true -> exists x y, a = Arr2 [[x]; [y]].
Proof.
  destruct a as [x|v|m]; simpl; try discriminate.
  intros [E F]%andb_true_iff. apply Nat.eqb_eq in E.
  apply length_S in E as (r1 & l & -> & E).
  apply length_S in E as (r2 & l' & -> & E). apply length_0 in E as ->.
  simpl in F. apply andb_true_iff in F as [F1 F].
  apply andb_true_iff in F as [F2 _].
  apply Nat.eqb_eq in F1, F2.
  apply length_S in F1 as (x & l & -> & F1). apply length_0 in F1 as ->.
  apply length_S in F2 as (y & l & -> & F2). apply length_0 in F2 as ->.
  now exists x, y.
Qed.

Lemma shape_mat22 a :
  has_shape a [2%nat; 2%nat] = true ->
  exists p q r s, a = Arr2 [[p; q]; [r; s]].
Proof.
  destruct a as [x|v|m]; simpl; try discriminate.
  intros [E F]%andb_true_iff. apply Nat.eqb_eq in E.
  apply length_S in E as (r1 & l & -> & E).
  apply length_S in E as (r2 & l' & -> & E). apply length_0 in E as ->.
  simpl in F. apply andb_true_iff in F as [F1 F].
  apply andb_true_iff in F as [F2 _].
  apply Nat.eqb_eq in F1, F2.
  apply length_S in F1 as (p & l & -> & F1).
  apply length_S in F1 as (q & l' & -> & F1). apply length_0 in F1 as ->.
  apply length_S in F2 as (r & l & -> & F2).
  apply length_S in F2 as (s & l' & -> & F2). apply length_0 in F2 as ->.
  now exists p, q, r, s.
Qed.

Lemma is_zero_true x : is_zero x = true <-> x = 0.
Proof. unfold is_zero. destruct (Qc_eq_dec x 0); split; congruence. Qed.

Lemma is_zero_false x : is_zero x = false <-> x <> 0.
Proof. unfold is_zero. destruct (Qc_eq_dec x 0); split; congruence. Qed.

(** ** Evaluating the array operations at the script's shapes *)

#[local] Arguments Qcplus : simpl never.
#[local] Arguments Qcmult : simpl never.
#[local] Arguments Qcminus : simpl never.
#[local] Arguments Qcopp : simpl never.
#[local] Arguments Qcdiv : simpl never.
#[local] Arguments Qcinv : simpl never.
#[local] Arguments Q2Qc : simpl never.
#[local] Arguments is_zero : simpl never.

(** Turn shape hypotheses into explicit entries. *)
Ltac shapes :=
  repeat match goal with
  | E : has_shape _ [1%nat] = true |- _ =>
      apply shape_vec1 in E as (? & E)
  | E : has_shape _ [2%nat] = true |- _ =>
      apply shape_vec2 in E as (? & ? & E)
  | E : has_shape _ [1%nat; 2%nat] = true |- _ =>
      apply shape_mat12 in E as (? & ? & E)
  | E : has_shape _ [2%nat; 1%nat] = true |- _ =>
      apply shape_mat21 in E as (? & ? & E)
  | E : has_shape _ [2%nat; 2%nat] = true |- _ =>
      apply shape_mat22 in E as (? & ? & ? & ? & E)
  end;
  repeat match goal with
  | E : ?a = Arr1 _ |- _ => is_var a; subst a
  | E : ?a = Arr2 _ |- _ => is_var a; subst a
  | E : Main.H _ = _ |- _ => rewrite E in *
  end.

Lemma forecast_shapes m mu P :
  has_shape m [2; 2]%nat = true ->
  has_shape mu [2; 1]%nat = true ->
  has_shape P [2; 2]%nat = true ->
  exists mu_f P_f,
    Spec.forecast_mean m mu = Ok mu_f /\ has_shape mu_f [2; 1]%nat = true /\
    Spec.forecast_cov m P = Ok P_f /\ has_shape P_f [2; 2]%nat = true.
Proof.
  intros Hm Hmu HP. shapes.
  eexists _, _. cbn. repeat split; reflexivity.
Qed.

Lemma col_eq (a b a' b' : scalar) :
  a = a' -> b = b' -> Ok (Arr2 [[a]; [b]]) = Ok (Arr2 [[a']; [b']]).
Proof. now intros -> ->. Qed.

Lemma col_inj (a b a' b' : Qc) :
  Ok (Arr2 [[a]; [b]]) = Ok (Arr2 [[a']; [b']]) -> a = a' /\ b = b'.
Proof. intros E. injection E as -> ->. now split. Qed.

Lemma mat_eq (a b c d a' b' c' d' : scalar) :
  a = a' -> b = b' -> c = c' -> d = d' ->
  Arr2 [[a; b]; [c; d]] = Arr2 [[a'; b']; [c'; d']].
Proof. now intros -> -> -> ->. Qed.

(** The loop body at the script's shapes, in terms of the forecast. *)
Lemma kalman_body_run c m ys k st mu P y mu_f P_f :
  has_shape (Main.H c) [1; 2]%nat = true ->
  py_last (Main.kalman_mus st) = Ok mu ->
  py_last (Main.kalman_Ps st) = Ok P ->
  py_index ys k = Ok y ->
  has_shape y [1%nat] = true ->
  Spec.forecast_mean m mu = Ok mu_f ->
  has_shape mu_f [2; 1]%nat = true ->
  Spec.forecast_cov m P = Ok P_f ->
  has_shape P_f [2; 2]%nat = true ->
  exists S,
    Spec.innovation_cov (Main.H c) (Arr0 (Main.R c)) P_f = Ok S /\
    has_shape S [1; 1]%nat = true /\
    (singular S ->
     Main.kalman_body c m ys k st = (Raise LinAlgError, st)) /\
    (~ singular S ->
     exists mu' P' K,
       Main.kalman_body c m ys k st = (Ok tt, push st mu' P' K) /\
       has_shape mu' [2; 1]%nat = true /\
       has_shape P' [2; 2]%nat = true /\
       has_shape K [2; 1]%nat = true /\
       gain_as_coded (Main.H c) P_f S K /\
       Spec.correct_mean (Main.H c) mu_f K y = Ok mu' /\
       Spec.correct_cov (Main.H c) P_f K = Ok P').
Proof.
  intros HH Hmu HP Hy Sy Fm Sm Fc Sc.
  unfold Main.kalman_body, Main.bind, Main.get, Main.lift.
  cbn [fst snd]. rewrite Hmu, HP.
  unfold Spec.forecast_mean in Fm. rewrite Fm.
  change (mp <- matmul m P ;; matmul mp (transpose m))
    with (Spec.forecast_cov m P).
  rewrite Fc. shapes. cbn.
  eexists. split; [reflexivity|]. split; [reflexivity|].
  rewrite Hy. cbn.
  match goal with
  | |- context [is_zero ?d] => set (s := d)
  end.
  split.
  - intros [_ E]. cbn in E. fold s in E.
    apply is_zero_true in E. rewrite E. reflexivity.
  - intros N.
    assert (E : is_zero s = false).
    { apply is_zero_false. intros E. apply N. split; [reflexivity|].
      cbn. exact E. }
    rewrite E. cbn.
    eexists _, _, _. split; [reflexivity|].
    split; [reflexivity|]. split; [reflexivity|]. split; [reflexivity|].
    split.
    + apply is_zero_false in E.
      eexists. split; [reflexivity|]. cbn.
      apply col_eq; subst s; field; intros Z; apply E;
        (etransitivity; [|exact Z]); ring.
    + split; reflexivity.
Qed.

(** ** Order on the scalars, through [Q] *)

Lemma Qc_eq_iff (x y : Qc) : x = y <-> (x == y)%Q.
Proof. split; [intros ->; reflexivity | apply Qc_is_canon]. Qed.

Lemma this_add (x y : Qc) : (this (x + y) == this x + this y)%Q.
Proof. apply Qred_correct. Qed.

Lemma this_mul (x y : Qc) : (this (x * y) == this x * this y)%Q.
Proof. apply Qred_correct. Qed.

Lemma this_opp (x : Qc) : (this (- x) == - this x)%Q.
Proof. apply Qred_correct. Qed.

Lemma this_sub (x y : Qc) : (this (x - y) == this x - this y)%Q.
Proof. unfold Qcminus. rewrite this_add, this_opp. reflexivity. Qed.

Lemma this_Q2Qc (q : Q) : (this (Q2Qc q) == q)%Q.
Proof. apply Qred_correct. Qed.

Ltac qc2q :=
  repeat match goal with
  | E : @eq Qc _ _ |- _ => apply Qc_eq_iff in E
  | E : ~ @eq Qc _ _ |- _ => rewrite Qc_eq_iff in E
  | |- @eq Qc _ _ => apply Qc_eq_iff
  | |- ~ @eq Qc _ _ => rewrite Qc_eq_iff
  end;
  unfold Qcle, Qclt in *;
  repeat rewrite ?this_add, ?this_mul, ?this_sub, ?this_opp, ?this_Q2Qc in *.

Lemma le_of_eq (x y : Qc) : x = y -> 0 <= x -> 0 <= y.
Proof. now intros ->. Qed.

Lemma pos_of_nonneg_ne (s : Qc) : 0 <= s -> s <> 0 -> 0 < s.
Proof. intros A B. qc2q. lra. Qed.

Lemma add_nonneg (x y : Qc) : 0 <= x -> 0 <= y -> 0 <= x + y.
Proof. intros A B. qc2q. lra. Qed.

Lemma square_nonneg (x : Qc) : 0 <= x * x.
Proof. qc2q. nra. Qed.

Lemma div_core (s x y : Qc) : 0 < s -> s * x = y -> 0 <= y -> 0 <= x.
Proof. intros A B C. qc2q. nra. Qed.

Lemma slack_core (r al be ga : Qc) :
  0 <= r -> 0 <= ga -> be * be <= al * ga ->
  0 <= (r + al) * ga - be * be.
Proof. intros A B C. qc2q. nra. Qed.

(** Cauchy-Schwarz for a positive semidefinite form, from two of its
    values. *)
Lemma cs_core (al be ga : Qc) :
  0 <= al -> 0 <= ga ->
  0 <= al * (al * ga - be * be) ->
  0 <= (ga + 1) * (ga + 1) * al - (1 + 1 + 1 + 1) * (be * be) ->
  be * be <= al * ga.
Proof.
  intros A G X1 X2. qc2q.
  destruct (Qlt_le_dec 0 (this al)) as [L|L].
  - nra.
  - assert (E : (this al == 0)%Q) by lra. rewrite E in *. nra.
Qed.

(** ** The covariance update on 2x2 matrices *)

Lemma psd_mat22 q00 q01 q10 q11 :
  psd (Arr2 [[q00; q01]; [q10; q11]]) <->
  forall x y, 0 <= qf q00 q01 q10 q11 x y.
Proof.
  split.
  - intros Hp x y. apply (Hp [x; y]). reflexivity.
  - intros Hq v Hv. cbn in Hv.
    apply length_S in Hv as (x & l & -> & Hv).
    apply length_S in Hv as (y & l' & -> & Hv).
    apply length_0 in Hv as ->. apply Hq.
Qed.

Lemma symmetric_mat22 q00 q01 q10 q11 :
  symmetric (Arr2 [[q00; q01]; [q10; q11]]) <-> q01 = q10.
Proof.
  unfold symmetric. cbn. split.
  - intros E. injection E. congruence.
  - now intros ->.
Qed.

Section Update.

Variables q00 q01 q11 h0 h1 r s k0 k1 : Qc.

Let g0 := h0 * q00 + h1 * q01.
Let g1 := h0 * q01 + h1 * q11.

Hypothesis q_psd : forall a b, 0 <= qf q00 q01 q01 q11 a b.
Hypothesis r_nonneg : 0 <= r.
Hypothesis s_def : s = r + qf q00 q01 q01 q11 h0 h1.
Hypothesis s_regular : s <> 0.
Hypothesis k0_def : k0 * s = g0.
Hypothesis k1_def : k1 * s = g1.

Lemma s_positive : 0 < s.
Proof.
  apply pos_of_nonneg_ne; [|exact s_regular].
  rewrite s_def. apply add_nonneg; [exact r_nonneg | apply q_psd].
Qed.

Lemma gain_symmetric : k0 * g1 = k1 * g0.
Proof. rewrite <- k0_def, <- k1_def. ring. Qed.

Lemma decrease_psd x y :
  0 <= qf (k0 * g0) (k0 * g1) (k1 * g0) (k1 * g1) x y.
Proof.
  apply (div_core s _ ((g0 * x + g1 * y) * (g0 * x + g1 * y))).
  - exact s_positive.
  - unfold qf. rewrite <- k0_def, <- k1_def. ring.
  - apply square_nonneg.
Qed.

Lemma cauchy_schwarz x y :
  (g0 * x + g1 * y) * (g0 * x + g1 * y)
  <= qf q00 q01 q01 q11 h0 h1 * qf q00 q01 q01 q11 x y.
Proof.
  set (al := qf q00 q01 q01 q11 h0 h1).
  set (ga := qf q00 q01 q01 q11 x y).
  set (be := g0 * x + g1 * y).
  apply cs_core.
  - apply q_psd.
  - apply q_psd.
  - apply (le_of_eq (qf q00 q01 q01 q11 (al * x - be * h0)
                       (al * y - be * h1))).
    + unfold al, ga, be, g0, g1, qf. ring.
    + apply q_psd.
  - apply (le_of_eq (qf q00 q01 q01 q11
                       ((1 + 1) * be * x - (ga + 1) * h0)
                       ((1 + 1) * be * y - (ga + 1) * h1))).
    + unfold al, ga, be, g0, g1, qf. ring.
    + apply q_psd.
Qed.

Lemma update_psd x y :
  0 <= qf (q00 - k0 * g0) (q01 - k0 * g1) (q01 - k1 * g0) (q11 - k1 * g1)
         x y.
Proof.
  apply (div_core s _
           ((r + qf q00 q01 q01 q11 h0 h1) * qf q00 q01 q01 q11 x y
            - (g0 * x + g1 * y) * (g0 * x + g1 * y))).
  - exact s_positive.
  - rewrite <- s_def.
    transitivity
      (s * qf q00 q01 q01 q11 x y
       - (k0 * s * x + k1 * s * y) * (g0 * x + g1 * y)).
    + unfold qf. ring.
    + rewrite k0_def, k1_def. ring.
  - apply slack_core.
    + exact r_nonneg.
    + apply q_psd.
    + apply cauchy_schwarz.
Qed.

End Update.

(** ** The loop body, read back from its result *)

Ltac inner_destruct x :=
  lazymatch x with
  | match ?y with _ => _ end => inner_destruct y
  | _ => destruct x eqn:?
  end.

Ltac step_res :=
  match goal with
  | |- context [match ?x with Ok _ => _ | Raise _ => _ end] =>
      inner_destruct x
  end.

Lemma kalman_body_inv c m ys k st r st' :
  Main.kalman_body c m ys k st = (r, st') ->
  match r with
  | Ok _ =>
      exists mu P y mu' P' K,
        py_last (Main.kalman_mus st) = Ok mu /\
        py_last (Main.kalman_Ps st) = Ok P /\
        py_index ys k = Ok y /\
        coded_step c m mu P y mu' P' K /\
        st' = push st mu' P' K
  | Raise _ =>
      Main.kalman_mus st' = Main.kalman_mus st /\
      Main.kalman_Ps st' = Main.kalman_Ps st
  end.
Proof.
  unfold Main.kalman_body, Main.bind, Main.get, Main.lift, Main.append_gain,
    Main.append_mu, Main.append_P, Main.put, rbind.
  cbn [fst snd].
  repeat (step_res; cbn [Main.kalman_mus Main.kalman_Ps Main.kalman_gains];
          try (intros [= <- <-]; cbn; split; reflexivity)).
  intros [= <- <-].
  eexists _, _, _, _, _, _.
  do 3 (split; [reflexivity|]).
  split; [|reflexivity].
  unfold coded_step, Spec.forecast_cov, Spec.correct_mean, Spec.correct_cov,
    rbind.
  eexists _, _, _, _, _, _, _.
  repeat match goal with
         | E : ?x = Ok _ |- context [?x] => rewrite E
         end.
  repeat split; try reflexivity; try eassumption;
    repeat match goal with
           | E : ?x = Ok _ |- context [?x] => rewrite E
           end; reflexivity.
Qed.

(** ** Forecast and correction of the covariance *)

Lemma forecast_cov_psd m P P_f :
  has_shape m [2; 2]%nat = true ->
  has_shape P [2; 2]%nat = true ->
  sym_psd P ->
  Spec.forecast_cov m P = Ok P_f ->
  has_shape P_f [2; 2]%nat = true /\ sym_psd P_f.
Proof.
  intros Hm HP [Sy Ps] Fc.
  apply shape_mat22 in Hm as (m00 & m01 & m10 & m11 & ->).
  apply shape_mat22 in HP as (p00 & p01 & p10 & p11 & ->).
  apply symmetric_mat22 in Sy. subst p10.
  rewrite psd_mat22 in Ps.
  cbn in Fc. injection Fc as <-.
  split; [reflexivity|]. split.
  - apply symmetric_mat22. ring.
  - apply psd_mat22. intros a b.
    apply (le_of_eq (qf p00 p01 p01 p11 (m00 * a + m10 * b)
                       (m01 * a + m11 * b))).
    + unfold qf. ring.
    + apply Ps.
Qed.

(** The correction of lines 88-94 on a symmetric positive semidefinite
    forecast covariance. *)
Lemma update_cov c P_f hp hph S b x P' :
  has_shape (Main.H c) [1; 2]%nat = true ->
  has_shape P_f [2; 2]%nat = true ->
  sym_psd P_f ->
  0 <= Main.R c ->
  matmul (Main.H c) P_f = Ok hp ->
  matmul hp (transpose (Main.H c)) = Ok hph ->
  add (Arr0 (Main.R c)) (transpose hph) = Ok S ->
  matmul (Main.H c) (transpose P_f) = Ok b ->
  np_linalg_solve S b = Ok x ->
  Spec.correct_cov (Main.H c) P_f (transpose x) = Ok P' ->
  has_shape P' [2; 2]%nat = true /\ sym_psd P' /\ loewner_le P' P_f.
Proof.
  intros HH HP [Sy Ps] Rn E1 E2 E3 E4 E5 E6.
  apply shape_mat12 in HH as (h0 & h1 & HH). rewrite HH in *.
  apply shape_mat22 in HP as (q00 & q01 & q10 & q11 & ->).
  apply symmetric_mat22 in Sy. subst q10.
  rewrite psd_mat22 in Ps.
  cbn in E1. injection E1 as <-.
  cbn in E2. injection E2 as <-.
  cbn in E3. injection E3 as <-.
  cbn in E4. injection E4 as <-.
  cbn in E5.
  match type of E5 with
  | context [is_zero ?d] => set (s := d) in *
  end.
  destruct (is_zero s) eqn:Z; [discriminate|].
  apply is_zero_false in Z.
  injection E5 as <-.
  unfold Spec.correct_cov in E6. cbn in E6. injection E6 as <-.
  set (k0 := ((h0 * q00 + (h1 * q01 + 0)) * 1 + 0) / s).
  set (k1 := ((h0 * q01 + (h1 * q11 + 0)) * 1 + 0) / s).
  assert (K0 : k0 * s = h0 * q00 + h1 * q01) by (unfold k0; field; exact Z).
  assert (K1 : k1 * s = h0 * q01 + h1 * q11) by (unfold k1; field; exact Z).
  assert (Sd : s = Main.R c + qf q00 q01 q01 q11 h0 h1)
    by (unfold s, qf; ring).
  clearbody s k0 k1.
  pose proof (gain_symmetric q00 q01 q11 h0 h1 s k0 k1 K0 K1) as Gs.
  split; [reflexivity|]. split; [split|].
  - apply symmetric_mat22.
    transitivity (q01 - k0 * (h0 * q01 + h1 * q11)); [ring|].
    rewrite Gs. ring.
  - apply psd_mat22. intros a b.
    eapply le_of_eq;
      [| exact (update_psd q00 q01 q11 h0 h1 (Main.R c) s k0 k1
                  Ps Rn Sd Z K0 K1 a b)].
    unfold qf. ring.
  - eexists. split; [reflexivity|]. cbn. split.
    + apply symmetric_mat22.
      transitivity (k0 * (h0 * q01 + h1 * q11)); [ring|].
      rewrite Gs. ring.
    + apply psd_mat22. intros a b.
      eapply le_of_eq;
        [| exact (decrease_psd q00 q01 q11 h0 h1 (Main.R c) s k0 k1
                    Ps Rn Sd Z K0 K1 a b)].
      unfold qf. ring.
Qed.

(** ** Lists and loops *)

Lemma py_last_snoc {X} (l : list X) (x : X) : py_last (l ++ [x]) = Ok x.
Proof. unfold py_last. rewrite rev_app_distr. reflexivity. Qed.

Lemma py_last_In {X} (l : list X) (x : X) : py_last l = Ok x -> In x l.
Proof.
  unfold py_last. destruct (rev l) as [|y r] eqn:E; [discriminate|].
  intros [= ->]. apply in_rev. rewrite E. now left.
Qed.

Lemma py_index_In {X} (l : list X) k (x : X) : py_index l k = Ok x -> In x l.
Proof.
  unfold py_index. destruct (nth_error l k) eqn:E; [|discriminate].
  intros [= ->]. eapply nth_error_In, E.
Qed.

Lemma py_index_nth {X} (l : list X) k (x : X) :
  py_index l k = Ok x <-> nth_error l k = Some x.
Proof.
  unfold py_index. destruct (nth_error l k); split; congruence.
Qed.

Lemma for_each_app ks1 ks2 body st :
  Main.for_each (ks1 ++ ks2) body st =
  match Main.for_each ks1 body st with
  | (Ok _, st1) => Main.for_each ks2 body st1
  | (Raise e, st1) => (Raise e, st1)
  end.
Proof.
  revert st. induction ks1 as [|k ks1 IH]; intros st; [reflexivity|].
  cbn. unfold Main.bind. destruct (body k st) as [[[]|e] st1].
  - apply IH.
  - reflexivity.
Qed.

(** A property of the lists that every pass through the body keeps holds
    when the loop stops, however it stops. *)
Lemma for_each_invariant (Inv : Main.kstate -> Prop) body ks :
  (forall k st r st', Inv st -> body k st = (r, st') -> Inv st') ->
  forall st, Inv st -> Inv (snd (Main.for_each ks body st)).
Proof.
  intros Step. induction ks as [|k ks IH]; intros st Hst; [exact Hst|].
  cbn. unfold Main.bind.
  destruct (body k st) as [[[]|e] st1] eqn:E.
  - apply IH. eapply Step; eassumption.
  - cbn. eapply Step; eassumption.
Qed.

Lemma for_each_ext body1 body2 ks st :
  (forall k s, In k ks -> body1 k s = body2 k s) ->
  Main.for_each ks body1 st = Main.for_each ks body2 st.
Proof.
  revert st. induction ks as [|k ks IH]; intros st E; [reflexivity|].
  cbn. unfold Main.bind. rewrite E by now left.
  destruct (body2 k st) as [[[]|e] st1]; [|reflexivity].
  apply IH. intros k' s Hk. apply E. now right.
Qed.

(** ** The dynamics model *)

Lemma qc_minus_two : qc (-2) 1 = - (1 + 1).
Proof. apply Qc_is_canon. reflexivity. Qed.

Lemma M_value c :
  Main.M c =
  Ok (Arr2 [[1 + Main.dt c * 0; 0 + Main.dt c * 1];
            [0 + Main.dt c * - (Main.w c * Main.w c);
             1 + Main.dt c * (qc (-2) 1 * Main.xi c * Main.w c)]]).
Proof. reflexivity. Qed.

Lemma M_shape c m : Main.M c = Ok m -> has_shape m [2; 2]%nat = true.
Proof. rewrite M_value. now intros [= <-]. Qed.

(** ** Invariants of the Kalman loop *)

Lemma singular_dec a : {singular a} + {~ singular a}.
Proof.
  destruct a as [x|v|m]; cbn; try (right; tauto).
  destruct (is_square m); [|right; intros [? _]; discriminate].
  destruct (Qc_eq_dec (det m) 0) as [E|E]; [left; tauto | right; tauto].
Qed.

Lemma shaped_init : shaped Main.kalman_init.
Proof. eexists _, _. cbn. repeat split; reflexivity. Qed.

Lemma shaped_body c m ys k st r st' :
  has_shape m [2; 2]%nat = true ->
  has_shape (Main.H c) [1; 2]%nat = true ->
  observations ys ->
  shaped st ->
  Main.kalman_body c m ys k st = (r, st') ->
  shaped st'.
Proof.
  intros Hm HH Hys (mu & P & Lm & Sm & LP & SP) E.
  destruct r as [[]|e].
  - pose proof (kalman_body_inv _ _ _ _ _ _ _ E) as I. cbn in I.
    destruct I as (mu1 & P1 & y & mu' & P' & K & L1 & L2 & Iy & _ & _).
    rewrite Lm in L1. rewrite LP in L2.
    injection L1 as <-. injection L2 as <-.
    destruct (forecast_shapes m mu P Hm Sm SP)
      as (mu_f & P_f & Fm & Sf & Fc & Sc).
    assert (Sy : has_shape y [1%nat] = true).
    { unfold observations in Hys. rewrite Forall_forall in Hys.
      apply Hys. eapply py_index_In, Iy. }
    destruct (kalman_body_run c m ys k st mu P y mu_f P_f
                HH Lm LP Iy Sy Fm Sf Fc Sc)
      as (S & _ & _ & Bad & Good).
    destruct (singular_dec S) as [Sg|Sg].
    + rewrite (Bad Sg) in E. discriminate.
    + destruct (Good Sg) as (mu2 & P2 & K2 & E2 & S1 & S2 & _).
      rewrite E2 in E. injection E as <-.
      exists mu2, P2. cbn. rewrite !py_last_snoc. tauto.
  - pose proof (kalman_body_inv _ _ _ _ _ _ _ E) as [I1 I2]. cbn in I1, I2.
    exists mu, P. rewrite I1, I2. tauto.
Qed.

Lemma identity_good : has_shape Main.I [2; 2]%nat = true /\ sym_psd Main.I.
Proof.
  split; [reflexivity|]. split; [reflexivity|].
  apply psd_mat22. intros x y.
  apply (le_of_eq (x * x + y * y)); [unfold qf; cbn; ring|].
  apply add_nonneg; apply square_nonneg.
Qed.

Lemma covariances_good_body c m ys k st r st' :
  has_shape m [2; 2]%nat = true ->
  has_shape (Main.H c) [1; 2]%nat = true ->
  0 <= Main.R c ->
  covariances_good st ->
  Main.kalman_body c m ys k st = (r, st') ->
  covariances_good st'.
Proof.
  intros Hm HH Rn G E. unfold covariances_good in *.
  pose proof (kalman_body_inv _ _ _ _ _ _ _ E) as I.
  destruct r as [[]|e].
  - destruct I as (mu & P & y & mu' & P' & K & _ & LP & _ & St & ->).
    cbn. apply Forall_app. split; [exact G|].
    constructor; [|constructor].
    destruct St as (mu_f & P_f & hp & hph & S & b & x & _ & Fc & E1 & E2
                    & E3 & E4 & E5 & -> & _ & E6).
    rewrite Forall_forall in G.
    destruct (G P (py_last_In _ _ LP)) as [SP GP].
    destruct (forecast_cov_psd m P P_f Hm SP GP Fc) as [Sf Gf].
    destruct (update_cov c P_f hp hph S b x P' HH Sf Gf Rn E1 E2 E3 E4 E5 E6)
      as (S' & G' & _).
    split; assumption.
  - destruct I as [_ ->]. exact G.
Qed.

Lemma py_last_nth {X} (l : list X) (x : X) k :
  length l = S k -> py_last l = Ok x -> nth_error l k = Some x.
Proof.
  intros L E.
  destruct (rev l) as [|y r] eqn:R.
  - unfold py_last in E. rewrite R in E. discriminate.
  - unfold py_last in E. rewrite R in E. injection E as ->.
    assert (El : l = rev r ++ [x]).
    { rewrite <- (rev_involutive l), R. reflexivity. }
    subst l. rewrite length_app, length_rev in L. cbn in L.
    rewrite nth_error_app2; rewrite length_rev; [|lia].
    replace (k - length r)%nat with 0%nat by lia. reflexivity.
Qed.

Lemma nth_error_snoc_old {X} (l : list X) (x : X) k :
  (k < length l)%nat -> nth_error (l ++ [x]) k = nth_error l k.
Proof. intros L. now apply nth_error_app1. Qed.

Lemma nth_error_snoc_new {X} (l : list X) (x : X) :
  nth_error (l ++ [x]) (length l) = Some x.
Proof. rewrite nth_error_app2, Nat.sub_diag by lia. reflexivity. Qed.

Lemma linked_init c m ys : linked c m ys Main.kalman_init.
Proof. repeat split. intros k Hk. cbn in Hk. lia. Qed.

Lemma linked_body c m ys k st st' :
  linked c m ys st ->
  length (Main.kalman_gains st) = k ->
  Main.kalman_body c m ys k st = (Ok tt, st') ->
  linked c m ys st' /\ length (Main.kalman_gains st') = S k.
Proof.
  intros (Lm & LP & Old) Lg E.
  pose proof (kalman_body_inv _ _ _ _ _ _ _ E) as I. cbn in I.
  destruct I as (mu & P & y & mu' & P' & K & Hm & HP & Hy & St & ->).
  rewrite Lg in Lm, LP.
  apply (py_last_nth _ _ k Lm) in Hm.
  apply (py_last_nth _ _ k LP) in HP.
  apply py_index_nth in Hy.
  unfold linked, push.
  cbn [Main.kalman_mus Main.kalman_Ps Main.kalman_gains].
  rewrite !length_app. cbn [length].
  split; [|lia]. split; [lia|]. split; [lia|].
  intros j Hj.
  destruct (Nat.eq_dec j k) as [->|Ne].
  - exists mu, P, y, mu', P', K.
    rewrite !(nth_error_snoc_old _ _ k) by lia.
    replace (nth_error (Main.kalman_mus st ++ [mu']) (S k)) with (Some mu')
      by (rewrite <- Lm; symmetry; apply nth_error_snoc_new).
    replace (nth_error (Main.kalman_Ps st ++ [P']) (S k)) with (Some P')
      by (rewrite <- LP; symmetry; apply nth_error_snoc_new).
    replace (nth_error (Main.kalman_gains st ++ [K]) k) with (Some K)
      by (rewrite <- Lg; symmetry; apply nth_error_snoc_new).
    tauto.
  - destruct (Old j) as (mu1 & P1 & y1 & mu2 & P2 & K1 & A1 & A2 & A3 & A4
                         & A5 & A6 & A7); [lia|].
    exists mu1, P1, y1, mu2, P2, K1.
    rewrite !nth_error_snoc_old by lia. tauto.
Qed.

Lemma linked_loop c m ys n a st st' :
  linked c m ys st ->
  length (Main.kalman_gains st) = a ->
  Main.for_each (seq a n) (Main.kalman_body c m ys) st = (Ok tt, st') ->
  linked c m ys st' /\ length (Main.kalman_gains st') = (a + n)%nat.
Proof.
  revert a st. induction n as [|n IH]; intros a st L Lg E.
  - cbn in E. injection E as <-. split; [exact L | lia].
  - cbn in E. unfold Main.bind in E.
    destruct (Main.kalman_body c m ys a st) as [[[]|e] st1] eqn:B;
      [|discriminate].
    destruct (linked_body c m ys a st st1 L Lg B) as [L1 Lg1].
    destruct (IH (S a) st1 L1 Lg1 E) as [L2 Lg2].
    split; [exact L2 | lia].
Qed.

(** The means only grow: a pass never removes or changes an entry. *)
Lemma body_keeps_mus c m ys k st r st' j x :
  Main.kalman_body c m ys k st = (r, st') ->
  nth_error (Main.kalman_mus st) j = Some x ->
  nth_error (Main.kalman_mus st') j = Some x.
Proof.
  intros E Hj.
  pose proof (kalman_body_inv _ _ _ _ _ _ _ E) as I.
  destruct r as [[]|e].
  - destruct I as (mu & P & y & mu' & P' & K & _ & _ & _ & _ & ->).
    cbn. rewrite nth_error_app1; [exact Hj|].
    apply nth_error_Some. congruence.
  - destruct I as [-> _]. exact Hj.
Qed.

Lemma loop_keeps_mus c m ys ks st j x :
  nth_error (Main.kalman_mus st) j = Some x ->
  nth_error
    (Main.kalman_mus (snd (Main.for_each ks (Main.kalman_body c m ys) st))) j
  = Some x.
Proof.
  intros Hj.
  apply (for_each_invariant
           (fun s => nth_error (Main.kalman_mus s) j = Some x)); [|exact Hj].
  intros k s r s' Hs E. eapply body_keeps_mus; eassumption.
Qed.

(** ** The trajectory simulator *)

Lemma true_xs_loop_orbit rows N : forall l v,
  ncols rows = length rows ->
  length v = length rows ->
  Main.true_xs_loop N (Arr2 rows) (l ++ [Arr1 v]) =
  Ok (l ++ map (orbit rows v) (seq 0 (S N))).
Proof.
  induction N as [|N IH]; intros l v Sq Lv; [reflexivity|].
  cbn [Main.true_xs_loop]. rewrite py_last_snoc. cbn [rbind matmul].
  rewrite Sq, Lv, Nat.eqb_refl. cbn [rbind].
  rewrite IH; [|exact Sq|unfold matvec; now rewrite length_map].
  f_equal. rewrite <- app_assoc. f_equal.
  change (seq 0 (S (S N))) with (0%nat :: seq 1 (S N)).
  rewrite <- seq_shift. cbn [map app]. rewrite map_map. f_equal.
  apply map_ext. intros k. unfold orbit. now rewrite Nat.iter_succ_r.
Qed.


Lemma shape_square22 rows :
  has_shape (Arr2 rows) [2; 2]%nat = true ->
  ncols rows = length rows /\ length rows = 2%nat.
Proof.
  intros E. apply shape_mat22 in E as (p & q & r & s & [= ->]). now split.
Qed.



(** ** Regular innovation covariance *)

Lemma innovation_regular c P_f S :
  has_shape (Main.H c) [1; 2]%nat = true ->
  has_shape P_f [2; 2]%nat = true ->
  sym_psd P_f ->
  0 < Main.R c ->
  Spec.innovation_cov (Main.H c) (Arr0 (Main.R c)) P_f = Ok S ->
  ~ singular S.
Proof.
  intros HH HP [Sy Ps] Rp E.
  apply shape_mat12 in HH as (h0 & h1 & HH). rewrite HH in *.
  apply shape_mat22 in HP as (q00 & q01 & q10 & q11 & ->).
  rewrite psd_mat22 in Ps.
  cbn in E. injection E as <-.
  intros [_ D]. cbn in D.
  pose proof (Ps h0 h1) as Q.
  assert (D' : Main.R c + qf q00 q01 q10 q11 h0 h1 = 0).
  { rewrite <- D. unfold qf. ring. }
  clear D. revert Rp Q D'.
  generalize (qf q00 q01 q10 q11 h0 h1) (Main.R c). intros al r Rp Q D.
  qc2q. lra.
Qed.

(** With a positive measurement variance and enough observations the
    loop runs to its end. *)
Lemma kalman_loop_from c m ys n : forall a st,
  has_shape m [2; 2]%nat = true ->
  has_shape (Main.H c) [1; 2]%nat = true ->
  0 < Main.R c ->
  observations ys ->
  (a + n <= length ys)%nat ->
  shaped st -> covariances_good st ->
  exists st',
    Main.for_each (seq a n) (Main.kalman_body c m ys) st = (Ok tt, st').
Proof.
  induction n as [|n IH]; intros a st Hm HH Rp Hys Len Sh Gd.
  - eexists. reflexivity.
  - cbn [seq Main.for_each]. unfold Main.bind.
    destruct (Main.kalman_body c m ys a st) as [r st1] eqn:B.
    assert (Sh1 := shaped_body c m ys a st r st1 Hm HH Hys Sh B).
    assert (Rn : 0 <= Main.R c) by (revert Rp; clear; intros; qc2q; lra).
    assert (Gd1 := covariances_good_body c m ys a st r st1 Hm HH Rn Gd B).
    destruct Sh as (mu & P & Lm & Sm & LP & SP).
    destruct (forecast_shapes m mu P Hm Sm SP)
      as (mu_f & P_f & Fm & Sf & Fc & Sc).
    destruct (nth_error ys a) as [y|] eqn:Ny;
      [|apply nth_error_None in Ny; lia].
    assert (Iy : py_index ys a = Ok y) by now apply py_index_nth.
    assert (Sy : has_shape y [1%nat] = true).
    { unfold observations in Hys. rewrite Forall_forall in Hys.
      apply Hys. eapply nth_error_In, Ny. }
    destruct (kalman_body_run c m ys a st mu P y mu_f P_f
                HH Lm LP Iy Sy Fm Sf Fc Sc)
      as (S & ES & _ & _ & Good).
    unfold covariances_good in Gd. rewrite Forall_forall in Gd.
    destruct (Gd P (py_last_In _ _ LP)) as [_ GP].
    destruct (forecast_cov_psd m P P_f Hm SP GP Fc) as [_ Gf].
    destruct (Good (innovation_regular c P_f S HH Sc Gf Rp ES))
      as (mu' & P' & K & E & _).
    rewrite E in B. injection B as <- <-.
    apply IH; try assumption. lia.
Qed.

(** A singular innovation covariance stops the pass at line 89, before
    any list is touched. *)
Lemma kalman_body_singular c m ys k st mu P mu_f P_f S :
  has_shape (Main.H c) [1; 2]%nat = true ->
  py_last (Main.kalman_mus st) = Ok mu ->
  py_last (Main.kalman_Ps st) = Ok P ->
  Spec.forecast_mean m mu = Ok mu_f ->
  Spec.forecast_cov m P = Ok P_f ->
  has_shape P_f [2; 2]%nat = true ->
  Spec.innovation_cov (Main.H c) (Arr0 (Main.R c)) P_f = Ok S ->
  singular S ->
  Main.kalman_body c m ys k st = (Raise LinAlgError, st).
Proof.
  intros HH Hmu HP Fm Fc Sc ES Sg.
  unfold Main.kalman_body, Main.bind, Main.get, Main.lift.
  cbn [fst snd]. rewrite Hmu, HP.
  unfold Spec.forecast_mean in Fm. rewrite Fm.
  change (mp <- matmul m P ;; matmul mp (transpose m))
    with (Spec.forecast_cov m P).
  rewrite Fc.
  apply shape_mat12 in HH as (h0 & h1 & HH). rewrite HH in *.
  apply shape_mat22 in Sc as (q00 & q01 & q10 & q11 & ->).
  cbn in ES. injection ES as <-. destruct Sg as [_ D]. cbn in D.
  cbn. apply is_zero_true in D. rewrite D. reflexivity.
Qed.


Lemma body_obs_ext c m ys ys' k st :
  nth_error ys k = nth_error ys' k ->
  Main.kalman_body c m ys k st = Main.kalman_body c m ys' k st.
Proof.
  intros E. unfold Main.kalman_body, py_index. now rewrite E.
Qed.

Lemma true_xs_loop_length N m : forall l xs,
  Main.true_xs_loop N m l = Ok xs -> length xs = (length l + N)%nat.
Proof.
  induction N as [|N IH]; intros l xs E.
  - injection E as <-. lia.
  - cbn in E. destruct (py_last l) as [x|]; [|discriminate].
    cbn in E. destruct (matmul m x) as [x'|]; [|discriminate].
    cbn in E. apply IH in E. rewrite length_app in E. cbn in E. lia.
Qed.

Lemma true_xs_length c m x xs :
  Main.true_xs c m x = Ok xs -> length xs = Z.to_nat (Main.T c + 1).
Proof.
  unfold Main.true_xs.
  destruct (Main.true_xs_loop _ m [x]) as [l|] eqn:E; [|discriminate].
  cbn [rbind]. intros [= <-]. apply true_xs_loop_length in E.
  cbn [length] in E. unfold slice_to, Main.n in *.
  destruct (0 <=? Main.T c + 1)%Z eqn:B.
  - apply Z.leb_le in B. rewrite length_firstn. lia.
  - apply Z.leb_gt in B. rewrite length_firstn. lia.
Qed.

(** ** The measurement generator *)

Section Generator.

Variable rng : Type.
Variable np_random_normal : Qc -> Qc -> rng -> Qc * rng.
Variable np_sqrt : Qc -> Qc.

Let synth_ys := Main.synth_ys rng np_random_normal np_sqrt.

Local Abbreviation draws := (draws rng np_random_normal np_sqrt).

Lemma synth_ys_measures c xs : forall g ys g',
  synth_ys c xs g = (Ok ys, g') ->
  length ys = length xs /\
  forall k x, nth_error xs k = Some x ->
    exists v y,
      nth_error (draws c (length xs) g) k = Some v /\
      nth_error ys k = Some y /\
      measures c x v y.
Proof.
  unfold synth_ys.
  induction xs as [|x xs IH]; intros g ys g' E.
  - cbn in E. injection E as <- <-. split; [reflexivity|].
    intros [|k] x E; discriminate.
  - cbn in E. destruct (matmul (Main.H c) x) as [hx|] eqn:Ex;
      [|discriminate].
    cbn [draws length].
    destruct (np_random_normal 0 (np_sqrt (Main.R c)) g) as [v g1].
    destruct (add hx (Arr0 v)) as [y|] eqn:Ey; [|discriminate].
    destruct (Main.synth_ys rng np_random_normal np_sqrt c xs g1)
      as [[ys1|] g2] eqn:Er; [|discriminate].
    cbn in E. injection E as <- <-.
    destruct (IH g1 ys1 g2 Er) as [L Hk].
    split; [cbn; now rewrite L|].
    intros [|k] x' Nx.
    + cbn in Nx. injection Nx as <-. exists v, y. cbn.
      repeat split. exists hx. now split.
    + cbn in Nx. cbn. apply Hk, Nx.
Qed.

Lemma synth_ys_draws c xs : forall g1 g2,
  draws c (length xs) g1 = draws c (length xs) g2 ->
  fst (synth_ys c xs g1) = fst (synth_ys c xs g2).
Proof.
  unfold synth_ys.
  induction xs as [|x xs IH]; intros g1 g2 E; [reflexivity|].
  cbn in E |- *.
  destruct (matmul (Main.H c) x) as [hx|]; [|reflexivity].
  destruct (np_random_normal 0 (np_sqrt (Main.R c)) g1) as [v1 h1].
  destruct (np_random_normal 0 (np_sqrt (Main.R c)) g2) as [v2 h2].
  injection E as <- E.
  destruct (add hx (Arr0 v1)) as [y|]; [|reflexivity].
  specialize (IH h1 h2 E).
  destruct (Main.synth_ys rng np_random_normal np_sqrt c xs h1) as [r1 k1].
  destruct (Main.synth_ys rng np_random_normal np_sqrt c xs h2) as [r2 k2].
  cbn in IH |- *. now rewrite IH.
Qed.

Lemma measures_shape c x v y :
  has_shape (Main.H c) [1; 2]%nat = true ->
  has_shape x [2%nat] = true ->
  measures c x v y ->
  has_shape y [1%nat] = true.
Proof.
  intros HH Hx (hx & E1 & E2).
  apply shape_mat12 in HH as (h0 & h1 & HH). rewrite HH in *.
  apply shape_vec2 in Hx as (a & b & ->).
  cbn in E1. injection E1 as <-. cbn in E2. injection E2 as <-.
  reflexivity.
Qed.

End Generator.

(** ** Covariances and gains do not read the observations *)

Lemma coded_step_cov_functional c m mu1 mu2 P y1 y2 mu1' mu2' P1 P2 K1 K2 :
  coded_step c m mu1 P y1 mu1' P1 K1 ->
  coded_step c m mu2 P y2 mu2' P2 K2 ->
  P1 = P2 /\ K1 = K2.
Proof.
  intros (f1 & F1 & hp1 & hph1 & S1 & b1 & x1 & _ & A2 & A3 & A4 & A5 & A6
          & A7 & -> & _ & A10)
         (f2 & F2 & hp2 & hph2 & S2 & b2 & x2 & _ & B2 & B3 & B4 & B5 & B6
          & B7 & -> & _ & B10).
  rewrite A2 in B2. injection B2 as <-.
  rewrite A3 in B3. injection B3 as <-.
  rewrite A4 in B4. injection B4 as <-.
  rewrite A5 in B5. injection B5 as <-.
  rewrite A6 in B6. injection B6 as <-.
  rewrite A7 in B7. injection B7 as <-.
  rewrite A10 in B10. injection B10 as <-.
  now split.
Qed.

Lemma cov_gain_independent c m ys ys' n : forall a s1 s2 t1 t2,
  Main.kalman_Ps s1 = Main.kalman_Ps s2 ->
  Main.kalman_gains s1 = Main.kalman_gains s2 ->
  Main.for_each (seq a n) (Main.kalman_body c m ys) s1 = (Ok tt, t1) ->
  Main.for_each (seq a n) (Main.kalman_body c m ys') s2 = (Ok tt, t2) ->
  Main.kalman_Ps t1 = Main.kalman_Ps t2 /\
  Main.kalman_gains t1 = Main.kalman_gains t2.
Proof.
  induction n as [|n IH]; intros a s1 s2 t1 t2 EP EG E1 E2.
  - cbn in E1, E2. injection E1 as <-. injection E2 as <-. now split.
  - cbn [seq Main.for_each] in E1, E2. unfold Main.bind in E1, E2.
    destruct (Main.kalman_body c m ys a s1) as [[[]|e1] u1] eqn:B1;
      [|discriminate].
    destruct (Main.kalman_body c m ys' a s2) as [[[]|e2] u2] eqn:B2;
      [|discriminate].
    pose proof (kalman_body_inv _ _ _ _ _ _ _ B1) as I1. cbn in I1.
    pose proof (kalman_body_inv _ _ _ _ _ _ _ B2) as I2. cbn in I2.
    destruct I1 as (mu1 & P1 & y1 & mu1' & P1' & K1 & _ & L1 & _ & C1 & ->).
    destruct I2 as (mu2 & P2 & y2 & mu2' & P2' & K2 & _ & L2 & _ & C2 & ->).
    rewrite EP, L2 in L1. injection L1 as <-.
    destruct (coded_step_cov_functional _ _ _ _ _ _ _ _ _ _ _ _ _ C1 C2)
      as [<- <-].
    apply (IH (S a) (push s1 mu1' P1' K1) (push s2 mu2' P1' K1) t1 t2);
      try assumption; cbn; congruence.
Qed.

(** ** Shapes of everything stored *)

Lemma well_shaped_init : well_shaped Main.kalman_init.
Proof. repeat split; repeat constructor. Qed.

Lemma well_shaped_loop c m ys n : forall a st st',
  has_shape m [2; 2]%nat = true ->
  has_shape (Main.H c) [1; 2]%nat = true ->
  observations ys ->
  shaped st -> well_shaped st ->
  Main.for_each (seq a n) (Main.kalman_body c m ys) st = (Ok tt, st') ->
  well_shaped st'.
Proof.
  induction n as [|n IH]; intros a st st' Hm HH Hys Sh Ws E.
  - cbn in E. now injection E as <-.
  - cbn [seq Main.for_each] in E. unfold Main.bind in E.
    destruct (Main.kalman_body c m ys a st) as [[[]|e] st1] eqn:B;
      [|discriminate].
    pose proof (shaped_body c m ys a st _ st1 Hm HH Hys Sh B) as Sh1.
    apply (IH (S a) st1 st' Hm HH Hys Sh1); [|exact E].
    destruct Sh as (mu & P & Lm & Sm & LP & SP).
    pose proof (kalman_body_inv _ _ _ _ _ _ _ B) as I. cbn in I.
    destruct I as (mu1 & P1 & y & mu' & P' & K & L1 & L2 & Iy & _ & _).
    destruct (forecast_shapes m mu P Hm Sm SP)
      as (mu_f & P_f & Fm & Sf & Fc & Sc).
    assert (Sy : has_shape y [1%nat] = true).
    { unfold observations in Hys. rewrite Forall_forall in Hys.
      apply Hys. eapply py_index_In, Iy. }
    destruct (kalman_body_run c m ys a st mu P y mu_f P_f
                HH Lm LP Iy Sy Fm Sf Fc Sc)
      as (Sv & _ & _ & Bad & Good).
    destruct (singular_dec Sv) as [Sg|Sg];
      [rewrite (Bad Sg) in B; discriminate|].
    destruct (Good Sg) as (mu2 & P2 & K2 & E2 & S1 & S2 & S3 & _).
    rewrite E2 in B. injection B as <-.
    destruct Ws as (W1 & W2 & W3).
    repeat split; cbn; apply Forall_app; split;
      try assumption; repeat constructor; assumption.
Qed.

Lemma well_shaped_run c m ys st :
  has_shape m [2; 2]%nat = true ->
  has_shape (Main.H c) [1; 2]%nat = true ->
  observations ys ->
  Main.kalman_loop c m ys Main.kalman_init = (Ok tt, st) ->
  well_shaped st.
Proof.
  intros Hm HH Hys E.
  exact (well_shaped_loop c m ys _ 0 Main.kalman_init st Hm HH Hys
           shaped_init well_shaped_init E).
Qed.

(** ** A completed pass is a transition *)

Lemma coded_step_transition c m mu P y mu' P' K :
  has_shape m [2; 2]%nat = true ->
  has_shape (Main.H c) [1; 2]%nat = true ->
  has_shape mu [2; 1]%nat = true ->
  has_shape P [2; 2]%nat = true ->
  has_shape y [1%nat] = true ->
  coded_step c m mu P y mu' P' K ->
  coded_transition m (Main.H c) (Arr0 (Main.R c)) mu P y mu' P' K.
Proof.
  intros Hm HH Sm SP Sy
    (mu_f & P_f & hp & hph & S & b & x & A1 & A2 & A3 & A4 & A5 & A6 & A7
     & -> & A9 & A10).
  destruct (forecast_shapes m mu P Hm Sm SP)
    as (mu_f' & P_f' & Fm & Sf & Fc & Sc).
  unfold Spec.forecast_mean in Fm. rewrite A1 in Fm. injection Fm as <-.
  rewrite A2 in Fc. injection Fc as <-.
  exists mu_f, P_f, S.
  split; [exact A1|]. split; [exact A2|].
  apply shape_mat12 in HH as (h0 & h1 & HH). rewrite HH in *.
  apply shape_mat22 in Sc as (q00 & q01 & q10 & q11 & ->).
  cbn in A3. injection A3 as <-.
  cbn in A4. injection A4 as <-.
  cbn in A5. injection A5 as <-.
  cbn in A6. injection A6 as <-.
  cbn in A7.
  match type of A7 with
  | context [is_zero ?d] => set (s := d) in *
  end.
  destruct (is_zero s) eqn:Z; [discriminate|].
  injection A7 as <-.
  apply is_zero_false in Z.
  split; [reflexivity|]. split.
  { intros [_ D]. cbn in D. fold s in D. contradiction. }
  split; [|split; assumption].
  eexists. split; [reflexivity|]. cbn.
  apply col_eq; subst s; field; intros E; apply Z;
    (etransitivity; [|exact E]); ring.
Qed.

Lemma synth_ys_observations rng np_random_normal np_sqrt c xs g ys g' :
  has_shape (Main.H c) [1; 2]%nat = true ->
  Forall (fun x => has_shape x [2%nat] = true) xs ->
  Main.synth_ys rng np_random_normal np_sqrt c xs g = (Ok ys, g') ->
  observations ys.
Proof.
  intros HH Hxs E.
  destruct (synth_ys_measures rng np_random_normal np_sqrt c xs g ys g' E)
    as [L Hk].
  apply Forall_forall. intros y Hy.
  apply In_nth_error in Hy as [k Nk].
  destruct (nth_error xs k) as [x|] eqn:Nx.
  - destruct (Hk k x Nx) as (v & y' & _ & Ny & Me).
    rewrite Nk in Ny. injection Ny as <-.
    rewrite Forall_forall in Hxs.
    exact (measures_shape c x v y HH (Hxs x (nth_error_In _ _ Nx)) Me).
  - apply nth_error_None in Nx.
    assert (k < length ys)%nat by (apply nth_error_Some; congruence). lia.
Qed.

(** * Properties of the design document *)

(** C5.  For all scalars omega, xi and dt the dynamics model yields
    [A = [[0, 1], [-omega^2, -2 xi omega]]] and [M = I + dt A]; written out,
    [M = [[1, dt], [-dt omega^2, 1 - 2 dt xi omega]]].  Both are values
    computed from the configuration alone; the loops only read [M]. *)
Theorem C5_dynamics_model (c : Main.config) :
  Main.A c =
    Arr2 [[0; 1];
          [- (Main.w c * Main.w c); - ((1 + 1) * Main.xi c * Main.w c)]] /\
  Main.M c = add (identity 2) (scale (Main.dt c) (Main.A c)) /\
  Main.M c =
    Ok (Arr2 [[1; Main.dt c];
              [- (Main.dt c * (Main.w c * Main.w c));
               1 - (1 + 1) * Main.dt c * Main.xi c * Main.w c]]).
Proof.
  split; [|split].
  - unfold Main.A. apply mat_eq; try reflexivity.
    rewrite qc_minus_two. ring.
  - reflexivity.
  - rewrite M_value. f_equal.
    apply mat_eq; try rewrite qc_minus_two; ring.
Qed.




(** C2, as the script has it.  With exact arithmetic: at every pass of
    the estimator that completes, for every measurement row [H] (1x2),
    every variance [R >= 0] and a symmetric positive semidefinite [P],
    the corrected covariance is below the forecast covariance of the same
    pass in the Loewner order: [P_f - P_new] is symmetric positive
    semidefinite.  This is the only order there is: the stored sequence
    [P_0, P_1, ...] is not monotone, and in binary64 rounding can break
    this order too (see the lemma after the example). *)
Theorem C2_corrected_below_forecast c m ys k st st' P :
  Main.M c = Ok m ->
  has_shape (Main.H c) [1; 2]%nat = true ->
  0 <= Main.R c ->
  py_last (Main.kalman_Ps st) = Ok P ->
  has_shape P [2; 2]%nat = true ->
  sym_psd P ->
  Main.kalman_body c m ys k st = (Ok tt, st') ->
  exists P_f P_new,
    Spec.forecast_cov m P = Ok P_f /\
    py_last (Main.kalman_Ps st') = Ok P_new /\
    loewner_le P_new P_f.
Proof.
  intros EM HH Rn LP SP GP E.
  pose proof (M_shape c m EM) as Hm.
  pose proof (kalman_body_inv _ _ _ _ _ _ _ E) as I. cbn in I.
  destruct I as (mu & P1 & y & mu' & P' & K & _ & LP1 & _ & St & ->).
  rewrite LP in LP1. injection LP1 as <-.
  destruct St as (mu_f & P_f & hp & hph & S & b & x & _ & Fc & E1 & E2
                  & E3 & E4 & E5 & -> & _ & E6).
  destruct (forecast_cov_psd m P P_f Hm SP GP Fc) as [Sf Gf].
  destruct (update_cov c P_f hp hph S b x P' HH Sf Gf Rn E1 E2 E3 E4 E5 E6)
    as (_ & _ & Le).
  exists P_f, P'. split; [exact Fc|]. split; [|exact Le].
  cbn. apply py_last_snoc.
Qed.

Lemma C2_corrected_below_forecast_witness :
  exists P_f P_new,
    Spec.forecast_cov (M_matrix small) Main.I = Ok P_f /\
    py_last (Main.kalman_Ps
               (snd (Main.kalman_body small (M_matrix small) [Arr1 [1]] 0
                       Main.kalman_init))) = Ok P_new /\
    loewner_le P_new P_f.
Proof.
  apply (C2_corrected_below_forecast small (M_matrix small) [Arr1 [1]]
           0%nat Main.kalman_init _ Main.I).
  - reflexivity.
  - reflexivity.
  - apply Qclt_le_weak. reflexivity.
  - reflexivity.
  - reflexivity.
  - exact (proj2 identity_good).
  - vm_compute. reflexivity.
Defined.

(** Two ways in which the covariances are not ordered.  With exact
    arithmetic two successive stored covariances need not be ordered: with
    a velocity sensor the position variance grows from [P_1] to [P_2].
    In binary64 the first pass of the reference run leaves the (1,1)
    entry of the covariance as it was (the decrement is less than half a
    unit in the last place) and changes the off-diagonal entries, so
    [P_f - P_new] is negative at [(1, 10^9)]. *)
Lemma C2_covariances_not_ordered :
  (let r :=
     Main.kalman_loop velocity_sensor (M_matrix velocity_sensor)
       [Arr1 [0]; Arr1 [0]] Main.kalman_init in
   fst r = Ok tt /\
   ~ loewner_le (nth 2 (Main.kalman_Ps (snd r)) (Arr0 0))
                (nth 1 (Main.kalman_Ps (snd r)) (Arr0 0))) /\
  (let r := Double.kalman_loop Double.two_passes (Double.zeros 2) in
   let P_f := Double.forecast_cov Double.two_passes Double.I in
   let P_new := nth 1 (Double.kalman_Ps (snd r)) [] in
   fst r = Ok tt /\
   ~ loewner_le (Double.exact_matrix P_new) (Double.exact_matrix P_f)).
Proof.
  split.
  - intros r. split; [vm_compute; reflexivity|].
    intros (d & E & _ & Hd).
    vm_compute in E. injection E as <-.
    specialize (Hd [1; 0] eq_refl).
    vm_compute in Hd. apply Hd. reflexivity.
  - intros r P_f P_new. split; [vm_compute; reflexivity|].
    intros (d & E & _ & Hd).
    vm_compute in E. injection E as <-.
    specialize (Hd [1; qc 1000000000 1] eq_refl).
    vm_compute in Hd. apply Hd. reflexivity.
Qed.

(** C3, as the script has it.  With exact arithmetic every covariance
    the estimator stores, at every index [k >= 0] and however the loop
    ends, is a symmetric positive semidefinite 2x2 matrix, for every
    measurement row [H] (1x2) and variance [R >= 0]; the update keeps this
    by itself.  The loop applies no symmetrization or other correction,
    so in binary64 rounding can leave a stored covariance that is not
    symmetric, or not positive semidefinite (see the lemma after the
    example). *)
Theorem C3_stored_covariances c m ys k P_k :
  Main.M c = Ok m ->
  has_shape (Main.H c) [1; 2]%nat = true ->
  0 <= Main.R c ->
  nth_error
    (Main.kalman_Ps (snd (Main.kalman_loop c m ys Main.kalman_init))) k
  = Some P_k ->
  has_shape P_k [2; 2]%nat = true /\ symmetric P_k /\ psd P_k.
Proof.
  intros EM HH Rn Nk.
  pose proof (M_shape c m EM) as Hm.
  assert (G : covariances_good
                (snd (Main.kalman_loop c m ys Main.kalman_init))).
  { apply (for_each_invariant covariances_good).
    - intros j s r s' Gs B.
      eapply covariances_good_body; eassumption.
    - constructor; [exact identity_good | constructor]. }
  unfold covariances_good in G. rewrite Forall_forall in G.
  destruct (G P_k (nth_error_In _ _ Nk)) as (S1 & S2 & S3). tauto.
Qed.

Lemma C3_stored_covariances_witness :
  let P_2 :=
    nth 2 (Main.kalman_Ps
             (snd (Main.kalman_loop small (M_matrix small)
                     [Arr1 [1]; Arr1 [qc 1 2]; Arr1 [0]]
                     Main.kalman_init))) (Arr0 0) in
  has_shape P_2 [2; 2]%nat = true /\ symmetric P_2 /\ psd P_2.
Proof.
  apply (C3_stored_covariances small (M_matrix small)
           [Arr1 [1]; Arr1 [qc 1 2]; Arr1 [0]] 2%nat).
  - reflexivity.
  - reflexivity.
  - apply Qclt_le_weak. reflexivity.
  - vm_compute. reflexivity.
Defined.

(** In binary64 the invariant is lost at the second pass: with two steps
    of size 0.1, [xi = 0.1] and [R = 4] the stored [P_2] has
    [P_2[0,1] <> P_2[1,0]], and without measurement noise ([R = 0], steps
    of size 1/2) the stored [P_2] has a negative entry [P_2[1,1]]. *)
Lemma C3_rounding_breaks_invariant :
  (let r := Double.kalman_loop Double.small (Double.zeros 2) in
   fst r = Ok tt /\
   ~ symmetric (Double.exact_matrix (nth 2 (Double.kalman_Ps (snd r)) []))) /\
  (let r := Double.kalman_loop Double.noiseless (Double.zeros 3) in
   fst r = Ok tt /\
   ~ psd (Double.exact_matrix (nth 2 (Double.kalman_Ps (snd r)) []))).
Proof.
  split.
  - intros r. split; [vm_compute; reflexivity|].
    intros E. unfold symmetric in E.
    apply (f_equal (entry 0 1)) in E. vm_compute in E. discriminate.
  - intros r. split; [vm_compute; reflexivity|].
    intros Hp. specialize (Hp [0; 1] eq_refl).
    vm_compute in Hp. apply Hp. reflexivity.
Qed.


Lemma orbit_length rows v k :
  length v = length rows -> length (Nat.iter k (matvec rows) v) = length rows.
Proof.
  intros L. destruct k as [|k]; [exact L|].
  rewrite Nat.iter_succ. unfold matvec. now rewrite length_map.
Qed.



(** C7.  If, after [k] completed passes, the innovation covariance of the
    next pass is singular, the run of the loop stops there with
    [LinAlgError] (an error kind of its own, distinct from [ValueError]
    and [IndexError]); no later pass runs, and the three lists are exactly
    those of the [k] completed passes: [k + 1] means, [k + 1] covariances
    and [k] gains, none of them changed. *)
Theorem C7_singular_innovation c m ys k st P P_f Sv :
  Main.M c = Ok m ->
  has_shape (Main.H c) [1; 2]%nat = true ->
  observations ys ->
  (k < Z.to_nat (Main.T c))%nat ->
  Main.for_each (seq 0 k) (Main.kalman_body c m ys) Main.kalman_init
  = (Ok tt, st) ->
  py_last (Main.kalman_Ps st) = Ok P ->
  Spec.forecast_cov m P = Ok P_f ->
  Spec.innovation_cov (Main.H c) (Arr0 (Main.R c)) P_f = Ok Sv ->
  singular Sv ->
  Main.kalman_loop c m ys Main.kalman_init = (Raise LinAlgError, st) /\
  length (Main.kalman_mus st) = S k /\
  length (Main.kalman_Ps st) = S k /\
  length (Main.kalman_gains st) = k.
Proof.
  intros EM HH Hys Hk E LP Fc ES Sg.
  pose proof (M_shape c m EM) as Hm.
  assert (Sh : shaped st).
  { change st with (snd (Ok tt, st)). rewrite <- E.
    apply (for_each_invariant shaped); [|exact shaped_init].
    intros j s r s' Hs B. eapply shaped_body; eassumption. }
  destruct Sh as (mu & P1 & Lm & Sm & LP1 & SP).
  rewrite LP in LP1. injection LP1 as <-.
  destruct (forecast_shapes m mu P Hm Sm SP)
    as (mu_f & P_f1 & Fm & _ & Fc1 & Sc).
  rewrite Fc in Fc1. injection Fc1 as <-.
  pose proof (kalman_body_singular c m ys k st mu P mu_f P_f Sv
                HH Lm LP Fm Fc Sc ES Sg) as B.
  destruct (linked_loop c m ys k 0 Main.kalman_init st
              (linked_init c m ys) eq_refl E) as [(L1 & L2 & _) L3].
  cbn in L3. rewrite L3 in L1, L2.
  split; [|tauto].
  unfold Main.kalman_loop, range.
  replace (Z.to_nat (Main.T c))
    with (k + S (Z.to_nat (Main.T c) - S k))%nat by lia.
  rewrite seq_app, for_each_app, E.
  cbn [seq Main.for_each Nat.add]. unfold Main.bind. now rewrite B.
Qed.

Lemma C7_singular_innovation_witness :
  let ys := [Arr1 [1]; Arr1 [1]; Arr1 [1]; Arr1 [1]] in
  let st :=
    snd (Main.for_each (seq 0 1)
           (Main.kalman_body degenerate (M_matrix degenerate) ys)
           Main.kalman_init) in
  Main.kalman_loop degenerate (M_matrix degenerate) ys Main.kalman_init
  = (Raise LinAlgError, st) /\
  length (Main.kalman_mus st) = 2%nat /\
  length (Main.kalman_Ps st) = 2%nat /\
  length (Main.kalman_gains st) = 1%nat.
Proof.
  intros ys st.
  pose (P := value (py_last (Main.kalman_Ps st))).
  pose (P_f := value (Spec.forecast_cov (M_matrix degenerate) P)).
  pose (S := value (Spec.innovation_cov (Main.H degenerate)
                      (Arr0 (Main.R degenerate)) P_f)).
  apply (C7_singular_innovation degenerate (M_matrix degenerate) ys 1%nat
           st P P_f S).
  - reflexivity.
  - reflexivity.
  - repeat constructor.
  - vm_compute. lia.
  - vm_compute. reflexivity.
  - vm_compute. reflexivity.
  - vm_compute. reflexivity.
  - vm_compute. reflexivity.
  - vm_compute. split; [reflexivity|].
    apply Qc_is_canon. vm_compute. reflexivity.
Defined.

Lemma nth_error_firstn_eq {X} j : forall (l l' : list X) k,
  firstn j l = firstn j l' -> (k < j)%nat -> nth_error l k = nth_error l' k.
Proof.
  induction j as [|j IH]; intros l l' k E L; [lia|].
  destruct l as [|x l], l' as [|x' l']; try discriminate; [reflexivity|].
  cbn in E. injection E as <- E.
  destruct k as [|k]; [reflexivity|]. cbn. apply IH; [exact E | lia].
Qed.

(** The mean at index [j] is decided by the first [j] observations. *)
Lemma mean_uses_prefix c m ys ys' st j :
  Main.kalman_loop c m ys Main.kalman_init = (Ok tt, st) ->
  firstn j ys' = firstn j ys ->
  nth_error
    (Main.kalman_mus (snd (Main.kalman_loop c m ys' Main.kalman_init))) j
  = nth_error (Main.kalman_mus st) j.
Proof.
  intros E F. unfold Main.kalman_loop, range in *.
  set (n := Z.to_nat (Main.T c)) in *.
  assert (Split : seq 0 n = seq 0 (Nat.min j n)
                            ++ seq (Nat.min j n) (n - Nat.min j n)).
  { replace n with (Nat.min j n + (n - Nat.min j n))%nat at 1 by lia.
    now rewrite seq_app. }
  rewrite Split in *. rewrite for_each_app in *.
  rewrite (for_each_ext (Main.kalman_body c m ys')
             (Main.kalman_body c m ys)).
  2:{ intros k s Hk. apply in_seq in Hk. apply body_obs_ext.
      apply (nth_error_firstn_eq j); [exact F | lia]. }
  destruct (Main.for_each (seq 0 (Nat.min j n)) (Main.kalman_body c m ys)
              Main.kalman_init) as [[[]|e] s1] eqn:E1; [|discriminate].
  destruct (linked_loop c m ys _ 0 Main.kalman_init s1
              (linked_init c m ys) eq_refl E1) as [(L1 & _) L3].
  cbn in L3. rewrite L3 in L1.
  destruct (Nat.le_gt_cases j n) as [Le|Gt].
  - rewrite Nat.min_l in L1 by exact Le.
    destruct (nth_error (Main.kalman_mus s1) j) as [x|] eqn:Nx;
      [|apply nth_error_None in Nx; lia].
    rewrite (loop_keeps_mus c m ys' _ s1 j x Nx).
    pose proof (loop_keeps_mus c m ys
                  (seq (Nat.min j n) (n - Nat.min j n)) s1 j x Nx) as K.
    rewrite E in K. cbn in K. now rewrite K.
  - replace (n - Nat.min j n)%nat with 0%nat in * by lia.
    cbn in E |- *. now injection E as <-.
Qed.

(** Two completed runs whose observations agree before index [j]: the
    means at index [j + 1] differ by the gain of pass [j] times the
    difference of the two observations at index [j]. *)
Lemma mean_sensitivity c m ys ys' st st' j y y' a b a' b' k0 k1 :
  has_shape m [2; 2]%nat = true ->
  has_shape (Main.H c) [1; 2]%nat = true ->
  observations ys ->
  Main.kalman_loop c m ys Main.kalman_init = (Ok tt, st) ->
  Main.kalman_loop c m ys' Main.kalman_init = (Ok tt, st') ->
  firstn j ys' = firstn j ys ->
  (j < Z.to_nat (Main.T c))%nat ->
  nth_error ys j = Some (Arr1 [y]) ->
  nth_error ys' j = Some (Arr1 [y']) ->
  nth_error (Main.kalman_gains st) j = Some (Arr2 [[k0]; [k1]]) ->
  nth_error (Main.kalman_mus st) (S j) = Some (Arr2 [[a]; [b]]) ->
  nth_error (Main.kalman_mus st') (S j) = Some (Arr2 [[a']; [b']]) ->
  a' - a = k0 * (y' - y) /\ b' - b = k1 * (y' - y).
Proof.
  intros Hm HH Hys E E' F Hj Ny Ny' NK Na Na'.
  pose proof (well_shaped_run c m ys st Hm HH Hys E) as (W1 & _ & _).
  pose proof (mean_uses_prefix c m ys ys' st j E F) as Pm.
  rewrite E' in Pm. cbn [snd] in Pm.
  destruct (cov_gain_independent c m ys ys' _ 0 Main.kalman_init
              Main.kalman_init st st' eq_refl eq_refl E E') as [EP EG].
  unfold Main.kalman_loop, range in E, E'.
  destruct (linked_loop c m ys _ 0 Main.kalman_init st
              (linked_init c m ys) eq_refl E) as [(_ & _ & Old) L3].
  destruct (linked_loop c m ys' _ 0 Main.kalman_init st'
              (linked_init c m ys') eq_refl E') as [(_ & _ & Old') L3'].
  cbn in L3, L3'.
  destruct (Old j) as (mu & P & y1 & mu1 & P1 & K1 & A1 & A2 & A3 & A4 & A5
                       & A6 & A7); [lia|].
  destruct (Old' j) as (mu2 & P2 & y2 & mu3 & P3 & K2 & B1 & B2 & B3 & B4
                        & B5 & B6 & B7); [lia|].
  rewrite Ny in A3. injection A3 as <-.
  rewrite Ny' in B3. injection B3 as <-.
  rewrite NK in A6. injection A6 as <-.
  rewrite <- EG, NK in B6. injection B6 as <-.
  rewrite Na in A4. injection A4 as <-.
  rewrite Na' in B4. injection B4 as <-.
  rewrite Pm, A1 in B1. injection B1 as <-.
  rewrite Forall_forall in W1.
  pose proof (W1 mu (nth_error_In _ _ A1)) as Sm.
  destruct A7 as (mu_f & _ & _ & _ & _ & _ & _ & Fm & _ & _ & _ & _ & _ & _
                  & _ & Cm & _).
  destruct B7 as (mu_f' & _ & _ & _ & _ & _ & _ & Fm' & _ & _ & _ & _ & _
                  & _ & _ & Cm' & _).
  rewrite Fm in Fm'. injection Fm' as <-.
  apply shape_mat22 in Hm as (m00 & m01 & m10 & m11 & ->).
  apply shape_mat21 in Sm as (u0 & u1 & ->).
  cbn in Fm. injection Fm as <-.
  apply shape_mat12 in HH as (h0 & h1 & HH). rewrite HH in Cm, Cm'.
  unfold Spec.correct_mean in Cm, Cm'. cbn in Cm, Cm'.
  apply col_inj in Cm as [<- <-]. apply col_inj in Cm' as [<- <-].
  split; ring.
Qed.

Section Alignment.

Variable rng : Type.
Variable np_random_normal : Qc -> Qc -> rng -> Qc * rng.
Variable np_sqrt : Qc -> Qc.

(** C10.  In a run that completes, pass [k] (for [0 <= k <= T - 1])
    forecasts from [(mu_k, P_k)], corrects with observation [y_k] and
    stores the result at index [k + 1], with the gain of line 89 (the one
    with [K S = P_f H^T]) at index [k]; [y_k] is the measurement
    [H x_k + v_k] of the true state of the same index.  The mean at index
    [j] is decided by [y_0 .. y_(j-1)] alone (a run on observations with
    the same first [j] entries stores the same [mu_j]), and it does
    depend on [y_(j-1)]: replacing that observation moves the mean by the
    gain times the change.  Entry [k] of the RMSE list compares [x_k] with
    [mu_k]. *)
Theorem C10_index_alignment c m xs g ys g' st :
  Main.M c = Ok m ->
  has_shape (Main.H c) [1; 2]%nat = true ->
  Forall (fun x => has_shape x [2%nat] = true) xs ->
  Main.synth_ys rng np_random_normal np_sqrt c xs g = (Ok ys, g') ->
  Main.kalman_loop c m ys Main.kalman_init = (Ok tt, st) ->
  (forall k, (k < Z.to_nat (Main.T c))%nat ->
     exists mu P y mu' P' K,
       nth_error (Main.kalman_mus st) k = Some mu /\
       nth_error (Main.kalman_Ps st) k = Some P /\
       nth_error ys k = Some y /\
       nth_error (Main.kalman_mus st) (S k) = Some mu' /\
       nth_error (Main.kalman_Ps st) (S k) = Some P' /\
       nth_error (Main.kalman_gains st) k = Some K /\
       coded_transition m (Main.H c) (Arr0 (Main.R c)) mu P y mu' P' K) /\
  (forall k x, nth_error xs k = Some x ->
     exists v y,
       nth_error (draws rng np_random_normal np_sqrt c (length xs) g) k
       = Some v /\
       nth_error ys k = Some y /\
       measures c x v y) /\
  (forall j ys', firstn j ys' = firstn j ys ->
     nth_error
       (Main.kalman_mus (snd (Main.kalman_loop c m ys' Main.kalman_init))) j
     = nth_error (Main.kalman_mus st) j) /\
  (forall j ys' st' y y' a b a' b' k0 k1,
     (j < Z.to_nat (Main.T c))%nat ->
     firstn j ys' = firstn j ys ->
     Main.kalman_loop c m ys' Main.kalman_init = (Ok tt, st') ->
     nth_error ys j = Some (Arr1 [y]) ->
     nth_error ys' j = Some (Arr1 [y']) ->
     nth_error (Main.kalman_gains st) j = Some (Arr2 [[k0]; [k1]]) ->
     nth_error (Main.kalman_mus st) (S j) = Some (Arr2 [[a]; [b]]) ->
     nth_error (Main.kalman_mus st') (S j) = Some (Arr2 [[a']; [b']]) ->
     a' - a = k0 * (y' - y) /\ b' - b = k1 * (y' - y)) /\
  (forall k a b p q,
     nth_error xs k = Some (Arr1 [a; b]) ->
     nth_error (Main.kalman_mus st) k = Some (Arr2 [[p]; [q]]) ->
     Main.RMSE_at np_sqrt xs (Main.kalman_mus st) k =
     Ok (Arr1 [np_sqrt (qc 1 2 * ((a - p) * (a - p) + (b - q) * (b - q)))])).
Proof.
  intros EM HH Hxs Ey E.
  pose proof (M_shape c m EM) as Hm.
  pose proof (synth_ys_observations rng np_random_normal np_sqrt c xs g ys
                g' HH Hxs Ey) as Hys.
  split; [|split; [|split; [|split]]].
  - intros k Hk.
    pose proof (well_shaped_run c m ys st Hm HH Hys E) as (W1 & W2 & _).
    unfold Main.kalman_loop, range in E.
    destruct (linked_loop c m ys _ 0 Main.kalman_init st
                (linked_init c m ys) eq_refl E) as [(_ & _ & Old) L3].
    cbn in L3.
    destruct (Old k) as (mu & P & y & mu' & P' & K & A1 & A2 & A3 & A4 & A5
                         & A6 & A7); [lia|].
    exists mu, P, y, mu', P', K.
    do 6 (split; [assumption|]).
    rewrite Forall_forall in W1, W2. unfold observations in Hys.
    rewrite Forall_forall in Hys.
    apply coded_step_transition; try assumption.
    + apply W1. eapply nth_error_In, A1.
    + apply W2. eapply nth_error_In, A2.
    + apply Hys. eapply nth_error_In, A3.
  - apply (synth_ys_measures rng np_random_normal np_sqrt c xs g ys g' Ey).
  - intros j ys' F. exact (mean_uses_prefix c m ys ys' st j E F).
  - intros j ys' st' y y' a b a' b' k0 k1 Hj F E' Ny Ny' NK Na Na'.
    exact (mean_sensitivity c m ys ys' st st' j y y' a b a' b' k0 k1
             Hm HH Hys E E' F Hj Ny Ny' NK Na Na').
  - intros k a b p q Nx Nm. unfold Main.RMSE_at, py_index.
    rewrite Nx, Nm. reflexivity.
Qed.

End Alignment.

Lemma C10_index_alignment_witness :
  let m := M_matrix small in
  let xs := [Arr1 [1; qc 2 1]; Arr1 [qc 6 5; qc 93 50]; Arr1 [1; 1]] in
  let g := [qc 1 2; qc (-1) 2; qc 1 4] in
  let ys :=
    match fst (Stream.synth_ys small xs g) with Ok l => l | Raise _ => [] end
  in
  let st := snd (Main.kalman_loop small m ys Main.kalman_init) in
  (forall k, (k < Z.to_nat (Main.T small))%nat ->
     exists mu P y mu' P' K,
       nth_error (Main.kalman_mus st) k = Some mu /\
       nth_error (Main.kalman_Ps st) k = Some P /\
       nth_error ys k = Some y /\
       nth_error (Main.kalman_mus st) (S k) = Some mu' /\
       nth_error (Main.kalman_Ps st) (S k) = Some P' /\
       nth_error (Main.kalman_gains st) k = Some K /\
       coded_transition m (Main.H small) (Arr0 (Main.R small))
         mu P y mu' P' K) /\
  (forall k x, nth_error xs k = Some x ->
     exists v y,
       nth_error (draws Stream.rng Stream.normal Stream.sqrt small
                    (length xs) g) k = Some v /\
       nth_error ys k = Some y /\
       measures small x v y) /\
  (forall j ys', firstn j ys' = firstn j ys ->
     nth_error
       (Main.kalman_mus
          (snd (Main.kalman_loop small m ys' Main.kalman_init))) j
     = nth_error (Main.kalman_mus st) j) /\
  (forall j ys' st' y y' a b a' b' k0 k1,
     (j < Z.to_nat (Main.T small))%nat ->
     firstn j ys' = firstn j ys ->
     Main.kalman_loop small m ys' Main.kalman_init = (Ok tt, st') ->
     nth_error ys j = Some (Arr1 [y]) ->
     nth_error ys' j = Some (Arr1 [y']) ->
     nth_error (Main.kalman_gains st) j = Some (Arr2 [[k0]; [k1]]) ->
     nth_error (Main.kalman_mus st) (S j) = Some (Arr2 [[a]; [b]]) ->
     nth_error (Main.kalman_mus st') (S j) = Some (Arr2 [[a']; [b']]) ->
     a' - a = k0 * (y' - y) /\ b' - b = k1 * (y' - y)) /\
  (forall k a b p q,
     nth_error xs k = Some (Arr1 [a; b]) ->
     nth_error (Main.kalman_mus st) k = Some (Arr2 [[p]; [q]]) ->
     Main.RMSE_at Stream.sqrt xs (Main.kalman_mus st) k =
     Ok (Arr1 [Stream.sqrt
                 (qc 1 2 * ((a - p) * (a - p) + (b - q) * (b - q)))])).
Proof.
  intros m xs g ys st.
  apply (C10_index_alignment Stream.rng Stream.normal Stream.sqrt small m
           xs g ys (snd (Stream.synth_ys small xs g)) st).
  - reflexivity.
  - reflexivity.
  - repeat constructor.
  - vm_compute. reflexivity.
  - vm_compute. reflexivity.
Defined.

(** ** Randomness *)

Section Determinism.

Variable rng : Type.
Variable np_random_multivariate_normal :
  ndarray -> ndarray -> rng -> ndarray * rng.
Variable np_random_normal : Qc -> Qc -> rng -> Qc * rng.
Variable np_sqrt : Qc -> Qc.

Let x0 := Main.x0 rng np_random_multivariate_normal.
Let main :=
  Main.main rng np_random_multivariate_normal np_random_normal np_sqrt.

(** C6, as the script has it.  A run is a function of the configuration
    and of the state of NumPy's global generator when the script starts;
    the script never seeds that generator.  The generator is read twice:
    for the initial condition [x0] (line 16) and for the [T + 1]
    measurement noises (line 60).  Two runs with the same configuration
    that draw the same [x0] and the same noises produce the same true
    states, measurements, estimates, gains and diagnostics. *)
Theorem C6_run_determined_by_draws c (g1 g2 : rng) :
  fst (x0 g1) = fst (x0 g2) ->
  draws rng np_random_normal np_sqrt c (Z.to_nat (Main.T c + 1))
    (snd (x0 g1))
  = draws rng np_random_normal np_sqrt c (Z.to_nat (Main.T c + 1))
      (snd (x0 g2)) ->
  main c g1 = main c g2.
Proof.
  unfold main, Main.main, x0.
  destruct (Main.x0 rng np_random_multivariate_normal g1) as [x h1].
  destruct (Main.x0 rng np_random_multivariate_normal g2) as [x' h2].
  cbn [fst snd]. intros <- D.
  destruct (Main.M c) as [m|e]; [|reflexivity]. cbn [rbind].
  destruct (Main.true_xs_loop (Z.to_nat (Main.n * Main.T c)) m [x])
    as [xs|e] eqn:Ex; [|reflexivity].
  cbn [rbind].
  destruct (Main.components 0 xs) as [zs|e]; [|reflexivity].
  destruct (Main.components 1 xs) as [zts|e]; [|reflexivity].
  cbn [rbind].
  destruct (Main.plt_scatter _ (Main.np_size zs)) as [[]|e]; [|reflexivity].
  destruct (Main.plt_scatter _ (Main.np_size zts)) as [[]|e]; [|reflexivity].
  cbn [rbind].
  assert (Ec : Main.true_xs c m x = Ok (slice_to xs (Main.T c + 1))).
  { unfold Main.true_xs. now rewrite Ex. }
  rewrite <- (true_xs_length c m x _ Ec) in D.
  now rewrite (synth_ys_draws rng np_random_normal np_sqrt c _ h1 h2 D).
Qed.

End Determinism.

Lemma C6_run_determined_by_draws_witness :
  Stream.main small [1; qc 2 1; qc 1 2]
  = Stream.main small [1; qc 2 1; qc 1 2; 0].
Proof.
  apply (C6_run_determined_by_draws Stream.rng Stream.multivariate_normal
           Stream.normal Stream.sqrt small).
  - vm_compute. reflexivity.
  - vm_compute. reflexivity.
Defined.

(** Two generator states that hand the measurement generator the same
    variates, yet give different runs: the initial condition is drawn
    too. *)
Lemma C6_initial_condition_is_drawn :
  snd (Stream.x0 [1; 0; qc 1 2]) = snd (Stream.x0 [0; 0; qc 1 2]) /\
  Stream.main small [1; 0; qc 1 2] <> Stream.main small [0; 0; qc 1 2].
Proof.
  split; [reflexivity|].
  intros E. apply (f_equal first_position) in E.
  vm_compute in E. discriminate.
Qed.

(** C9, as the script has it.  The reference run uses [T = 25000],
    [dt = 0.001], [omega = 1], [xi = 0.001], [H = [[1, 0]]], [R = 5],
    [mu_0 = (0, 0)^T] and [P_0 = I]; the true initial condition is what
    [np.random.multivariate_normal([0, 0], I)] returns, a draw with mean
    [(0, 0)] and covariance [I] from the generator as it is, not the zero
    vector. *)
Theorem C9_reference_scenario :
  Main.T Main.reference = 25000%Z /\
  Main.dt Main.reference = qc 1 1000 /\
  Main.w Main.reference = 1 /\
  Main.xi Main.reference = qc 1 1000 /\
  Main.H Main.reference = Arr2 [[1; 0]] /\
  Main.R Main.reference = qc 5 1 /\
  Main.kalman_mus Main.kalman_init = [Arr2 [[0]; [0]]] /\
  Main.kalman_Ps Main.kalman_init = [identity 2] /\
  forall (rng : Type) (sampler : ndarray -> ndarray -> rng -> ndarray * rng)
         (g : rng),
    Main.x0 rng sampler g = sampler (Arr1 [0; 0]) (identity 2) g.
Proof. repeat split. Qed.

(** A generator whose next two variates are [1] and [0] gives the true
    initial condition [(1, 0)]. *)
Lemma C9_initial_condition_not_zero :
  fst (Stream.x0 [1; 0]) <> Arr1 [0; 0].
Proof.
  intros E.
  apply (f_equal (fun a => match a with
                           | Arr1 (z :: _) => this z
                           | _ => 0%Q
                           end)) in E.
  vm_compute in E. discriminate.
Qed.

(** ** Configuration checks *)

(** C8, as the script has it.  Nothing is checked when the model is
    built: for every configuration with [T >= 0] (any [dt], also
    [dt <= 0]; any [R], also negative; any [H]) [M] is built and the
    trajectory loop runs to its end without error, giving [T + 1]
    states. *)
Theorem C8_no_validation c x :
  (0 <= Main.T c)%Z ->
  has_shape x [2%nat] = true ->
  exists m xs,
    Main.M c = Ok m /\
    Main.true_xs c m x = Ok xs /\
    length xs = S (Z.to_nat (Main.T c)).
Proof.
  intros HT Hx. destruct x as [?|v|?]; try discriminate.
  assert (Lv : length v = 2%nat) by now apply Nat.eqb_eq.
  exists (M_matrix c).
  assert (E : exists xs, Main.true_xs c (M_matrix c) (Arr1 v) = Ok xs).
  { unfold Main.true_xs, M_matrix.
    rewrite (true_xs_loop_orbit _ _ [] v) by (cbn; congruence).
    eexists. reflexivity. }
  destruct E as [xs E]. exists xs.
  split; [reflexivity|]. split; [exact E|].
  rewrite (true_xs_length _ _ _ _ E). lia.
Qed.

Lemma C8_no_validation_witness :
  exists m xs,
    Main.M careless = Ok m /\
    Main.true_xs careless m (Arr1 [1; qc 2 1]) = Ok xs /\
    length xs = S (Z.to_nat (Main.T careless)).
Proof.
  apply (C8_no_validation careless (Arr1 [1; qc 2 1])).
  - vm_compute. discriminate.
  - reflexivity.
Defined.

(** A run with a negative step size goes through from the first line to
    the last. *)
Lemma C8_negative_dt_accepted :
  Main.dt backwards < 0 /\
  completes (Stream.main backwards [1; 0; qc 1 2]) = true.
Proof. split; [reflexivity|]. vm_compute. reflexivity. Qed.

(** * Further properties of the script *)

(** ** The Kalman loop *)

(** With a row [H] of shape (1, 2) and observations of shape (1,) up to
    index [a + n], [n] passes from a state with a 2x1 mean and a 2x2
    covariance either all complete or stop at a solve. *)
Lemma loop_outcomes c m ys n : forall a st,
  has_shape m [2; 2]%nat = true ->
  has_shape (Main.H c) [1; 2]%nat = true ->
  observations ys ->
  (a + n <= length ys)%nat ->
  shaped st ->
  exists k st',
    Main.for_each (seq a k) (Main.kalman_body c m ys) st = (Ok tt, st') /\
    (k = n /\
     Main.for_each (seq a n) (Main.kalman_body c m ys) st = (Ok tt, st')
     \/
     (k < n)%nat /\
     Main.for_each (seq a n) (Main.kalman_body c m ys) st
     = (Raise LinAlgError, st')).
Proof.
  induction n as [|n IH]; intros a st Hm HH Hys Len Sh.
  - exists 0%nat, st. split; [reflexivity|]. left. now split.
  - pose proof Sh as (mu & P & Lm & Sm & LP & SP).
    destruct (forecast_shapes m mu P Hm Sm SP)
      as (mu_f & P_f & Fm & Sf & Fc & Sc).
    destruct (nth_error ys a) as [y|] eqn:Ny;
      [|apply nth_error_None in Ny; lia].
    assert (Iy : py_index ys a = Ok y) by now apply py_index_nth.
    assert (Sy : has_shape y [1%nat] = true).
    { unfold observations in Hys. rewrite Forall_forall in Hys.
      apply Hys. eapply nth_error_In, Ny. }
    destruct (kalman_body_run c m ys a st mu P y mu_f P_f
                HH Lm LP Iy Sy Fm Sf Fc Sc)
      as (Sv & _ & _ & Bad & Good).
    destruct (singular_dec Sv) as [Sg|Sg].
    + exists 0%nat, st. split; [reflexivity|]. right. split; [lia|].
      cbn [seq Main.for_each]. unfold Main.bind. now rewrite (Bad Sg).
    + destruct (Good Sg) as (mu' & P' & K & E & _).
      pose proof (shaped_body c m ys a st _ _ Hm HH Hys Sh E) as Sh1.
      destruct (IH (S a) (push st mu' P' K) Hm HH Hys ltac:(lia) Sh1)
        as (k & st' & Ek & D).
      exists (S k), st'.
      cbn [seq Main.for_each]. unfold Main.bind. rewrite E.
      split; [exact Ek|].
      destruct D as [[-> D]|[L D]]; [left | right]; split;
        try assumption; try reflexivity; lia.
Qed.

(** X1.  With a measurement row of shape (1, 2) and at least [T]
    observations of shape (1,), the loop of lines 80-96 can stop early at
    one place only, the solve of line 89: either it completes its [T]
    passes, or it stops with [LinAlgError] after [k < T] completed
    passes.  Either way the lists are those of the completed passes:
    [k + 1] means, [k + 1] covariances and [k] gains. *)
Theorem X1_loop_stops_only_at_solve c m ys :
  Main.M c = Ok m ->
  has_shape (Main.H c) [1; 2]%nat = true ->
  observations ys ->
  (Z.to_nat (Main.T c) <= length ys)%nat ->
  exists k st,
    Main.for_each (seq 0 k) (Main.kalman_body c m ys) Main.kalman_init
    = (Ok tt, st) /\
    length (Main.kalman_mus st) = S k /\
    length (Main.kalman_Ps st) = S k /\
    length (Main.kalman_gains st) = k /\
    (k = Z.to_nat (Main.T c) /\
     Main.kalman_loop c m ys Main.kalman_init = (Ok tt, st)
     \/
     (k < Z.to_nat (Main.T c))%nat /\
     Main.kalman_loop c m ys Main.kalman_init = (Raise LinAlgError, st)).
Proof.
  intros EM HH Hys Len.
  pose proof (M_shape c m EM) as Hm.
  destruct (loop_outcomes c m ys (Z.to_nat (Main.T c)) 0 Main.kalman_init
              Hm HH Hys Len shaped_init) as (k & st & Ek & D).
  exists k, st. split; [exact Ek|].
  destruct (linked_loop c m ys k 0 Main.kalman_init st
              (linked_init c m ys) eq_refl Ek) as [(L1 & L2 & _) L3].
  cbn in L3. rewrite L3 in L1, L2.
  split; [exact L1|]. split; [exact L2|]. split; [exact L3|]. exact D.
Qed.

Lemma X1_loop_stops_only_at_solve_witness :
  let ys := [Arr1 [1]; Arr1 [1]; Arr1 [1]; Arr1 [1]] in
  exists k st,
    Main.for_each (seq 0 k)
      (Main.kalman_body degenerate (M_matrix degenerate) ys)
      Main.kalman_init = (Ok tt, st) /\
    length (Main.kalman_mus st) = S k /\
    length (Main.kalman_Ps st) = S k /\
    length (Main.kalman_gains st) = k /\
    (k = Z.to_nat (Main.T degenerate) /\
     Main.kalman_loop degenerate (M_matrix degenerate) ys Main.kalman_init
     = (Ok tt, st)
     \/
     (k < Z.to_nat (Main.T degenerate))%nat /\
     Main.kalman_loop degenerate (M_matrix degenerate) ys Main.kalman_init
     = (Raise LinAlgError, st)).
Proof.
  intros ys.
  apply (X1_loop_stops_only_at_solve degenerate (M_matrix degenerate) ys).
  - reflexivity.
  - reflexivity.
  - repeat constructor.
  - vm_compute. lia.
Defined.

(** X2.  The covariances and the gains do not depend on the measured
    values: two runs of the loop that both complete, on any two lists of
    observations, store the same [kalman_Ps] and the same [kalman_gains]
    (lines 87-90 and 94 never read [synth_ys]). *)
Theorem X2_covariances_ignore_observations c m ys ys' st st' :
  Main.kalman_loop c m ys Main.kalman_init = (Ok tt, st) ->
  Main.kalman_loop c m ys' Main.kalman_init = (Ok tt, st') ->
  Main.kalman_Ps st = Main.kalman_Ps st' /\
  Main.kalman_gains st = Main.kalman_gains st'.
Proof.
  intros E1 E2.
  exact (cov_gain_independent c m ys ys' _ 0 Main.kalman_init
           Main.kalman_init st st' eq_refl eq_refl E1 E2).
Qed.

Lemma X2_covariances_ignore_observations_witness :
  let s1 := snd (Main.kalman_loop small (M_matrix small)
                   [Arr1 [1]; Arr1 [qc 1 2]] Main.kalman_init) in
  let s2 := snd (Main.kalman_loop small (M_matrix small)
                   [Arr1 [qc (-7) 1]; Arr1 [qc 3 1]] Main.kalman_init) in
  Main.kalman_Ps s1 = Main.kalman_Ps s2 /\
  Main.kalman_gains s1 = Main.kalman_gains s2.
Proof.
  apply (X2_covariances_ignore_observations small (M_matrix small)
           [Arr1 [1]; Arr1 [qc 1 2]] [Arr1 [qc (-7) 1]; Arr1 [qc 3 1]]).
  - vm_compute. reflexivity.
  - vm_compute. reflexivity.
Defined.

(** ** The measurement generator *)

Section GeneratorFacts.

Variable rng : Type.
Variable np_random_normal : Qc -> Qc -> rng -> Qc * rng.
Variable np_sqrt : Qc -> Qc.

Lemma synth_ys_total c xs g :
  has_shape (Main.H c) [1; 2]%nat = true ->
  Forall (fun x => has_shape x [2%nat] = true) xs ->
  exists ys,
    Main.synth_ys rng np_random_normal np_sqrt c xs g
    = (Ok ys, advance rng np_random_normal np_sqrt c (length xs) g) /\
    length ys = length xs /\
    observations ys.
Proof.
  intros HH Hxs. revert g.
  induction Hxs as [|x xs Hx _ IH]; intros g.
  - exists []. repeat split. constructor.
  - cbn [Main.synth_ys length advance].
    apply shape_mat12 in HH as (h0 & h1 & HH). rewrite HH in *.
    apply shape_vec2 in Hx as (a & b & ->).
    cbn [matmul ncols hd length Nat.eqb].
    destruct (np_random_normal 0 (np_sqrt (Main.R c)) g) as [v g1].
    cbn [snd]. destruct (IH g1) as (ys & E & L & O). rewrite E.
    eexists. split; [reflexivity|]. split; [cbn; now rewrite L|].
    constructor; [reflexivity | exact O].
Qed.

(** X3.  For a measurement row of shape (1, 2) and true states of shape
    (2,), line 60 never raises: it returns one observation of shape (1,)
    per state, and it has called [np.random.normal] exactly once per
    state, leaving the generator where that many calls leave it. *)
Theorem X3_measurements_per_state c xs g :
  has_shape (Main.H c) [1; 2]%nat = true ->
  Forall (fun x => has_shape x [2%nat] = true) xs ->
  exists ys,
    Main.synth_ys rng np_random_normal np_sqrt c xs g
    = (Ok ys, advance rng np_random_normal np_sqrt c (length xs) g) /\
    length ys = length xs /\
    observations ys.
Proof. exact (synth_ys_total c xs g). Qed.

(** X4.  If the rows of [H] do not have two entries, line 60 raises
    [ValueError] at the first true state, before any noise is drawn: the
    generator is left untouched. *)
Theorem X4_measurement_shape_error c rows x xs g :
  Main.H c = Arr2 rows ->
  ncols rows <> 2%nat ->
  has_shape x [2%nat] = true ->
  Main.synth_ys rng np_random_normal np_sqrt c (x :: xs) g
  = (Raise ValueError, g).
Proof.
  intros HH Nc Hx. apply shape_vec2 in Hx as (a & b & ->).
  cbn [Main.synth_ys]. rewrite HH. cbn [matmul length].
  destruct (Nat.eqb_spec (ncols rows) 2); [contradiction | reflexivity].
Qed.

End GeneratorFacts.

Lemma X3_measurements_per_state_witness :
  exists ys,
    Stream.synth_ys small [Arr1 [1; qc 2 1]; Arr1 [0; 1]] [qc 1 2]
    = (Ok ys, advance Stream.rng Stream.normal Stream.sqrt small 2
                [qc 1 2]) /\
    length ys = 2%nat /\
    observations ys.
Proof.
  apply (X3_measurements_per_state Stream.rng Stream.normal Stream.sqrt
           small [Arr1 [1; qc 2 1]; Arr1 [0; 1]] [qc 1 2]).
  - reflexivity.
  - repeat constructor.
Defined.

Lemma X4_measurement_shape_error_witness :
  Stream.synth_ys nonsense [Arr1 [1; qc 2 1]; Arr1 [0; 1]] [qc 1 2]
  = (Raise ValueError, [qc 1 2]).
Proof.
  apply (X4_measurement_shape_error Stream.rng Stream.normal Stream.sqrt
           nonsense [[1; 0; 0]]).
  - reflexivity.
  - vm_compute. discriminate.
  - reflexivity.
Defined.

(** ** The trajectory simulator at its edges *)

(** X5.  With [T >= 1], a 2x2 matrix [M] and an initial state that is a
    vector of any length other than 2, the first product [M @ x0] of line
    28 raises [ValueError]. *)
Theorem X5_initial_state_shape_error c m v :
  (1 <= Main.T c)%Z ->
  has_shape m [2; 2]%nat = true ->
  length v <> 2%nat ->
  Main.true_xs c m (Arr1 v) = Raise ValueError.
Proof.
  intros HT Hm Lv.
  apply shape_mat22 in Hm as (p & q & r & s & ->).
  unfold Main.true_xs.
  destruct (Z.to_nat (Main.n * Main.T c)) as [|N] eqn:EN;
    [unfold Main.n in EN; lia|].
  cbn [Main.true_xs_loop]. change [Arr1 v] with ([] ++ [Arr1 v]).
  rewrite py_last_snoc. cbn [rbind matmul ncols hd length].
  destruct (Nat.eqb_spec 2 (length v)); [congruence | reflexivity].
Qed.

Lemma X5_initial_state_shape_error_witness :
  Main.true_xs small (M_matrix small) (Arr1 [1; 1; 1]) = Raise ValueError.
Proof.
  apply X5_initial_state_shape_error.
  - vm_compute. discriminate.
  - reflexivity.
  - vm_compute. discriminate.
Defined.

(** ** What one correction does *)

(** X6.  In a pass that completes, the corrected mean is closer to the
    observation than the forecast by the factor [R / S]: with
    [a = H mu_f], [b = H mu_new], observation [y] and innovation
    covariance [S], [(b - y) S = R (a - y)].  This holds for every 2x2
    covariance, symmetric or not. *)
Theorem X6_residual_shrinks c m ys k st st' mu P y0 :
  Main.M c = Ok m ->
  has_shape (Main.H c) [1; 2]%nat = true ->
  py_last (Main.kalman_mus st) = Ok mu ->
  has_shape mu [2; 1]%nat = true ->
  py_last (Main.kalman_Ps st) = Ok P ->
  has_shape P [2; 2]%nat = true ->
  py_index ys k = Ok (Arr1 [y0]) ->
  Main.kalman_body c m ys k st = (Ok tt, st') ->
  exists mu_f P_f s a mu' b,
    Spec.forecast_mean m mu = Ok mu_f /\
    Spec.forecast_cov m P = Ok P_f /\
    Spec.innovation_cov (Main.H c) (Arr0 (Main.R c)) P_f = Ok (Arr2 [[s]]) /\
    matmul (Main.H c) mu_f = Ok (Arr2 [[a]]) /\
    py_last (Main.kalman_mus st') = Ok mu' /\
    matmul (Main.H c) mu' = Ok (Arr2 [[b]]) /\
    (b - y0) * s = Main.R c * (a - y0).
Proof.
  intros EM HH Lm Sm LP SP Iy B.
  pose proof (M_shape c m EM) as Hm.
  destruct (forecast_shapes m mu P Hm Sm SP)
    as (mu_f & P_f & Fm & Sf & Fc & Sc).
  destruct (kalman_body_run c m ys k st mu P (Arr1 [y0]) mu_f P_f
              HH Lm LP Iy eq_refl Fm Sf Fc Sc)
    as (S & ES & SS & Bad & Good).
  destruct (singular_dec S) as [Sg|Sg];
    [rewrite (Bad Sg) in B; discriminate|].
  destruct (Good Sg) as (mu' & P' & K & E & _ & _ & SK & (b0 & Eb & EK)
                         & Cm & _).
  rewrite E in B. injection B as <-.
  clear Bad Good E Sg SS.
  apply shape_mat12 in HH as (h0 & h1 & HH).
  rewrite HH in ES, Eb, Cm |- *.
  apply shape_mat21 in Sf as (f0 & f1 & ->).
  apply shape_mat22 in Sc as (q00 & q01 & q10 & q11 & ->).
  apply shape_mat21 in SK as (k0 & k1 & ->).
  cbn in ES. injection ES as <-.
  cbn in Eb. injection Eb as <-.
  cbn in EK. apply col_inj in EK as [K0 K1].
  unfold Spec.correct_mean in Cm. cbn in Cm. injection Cm as <-.
  eexists _, _, _, _, _, _.
  split; [exact Fm|]. split; [exact Fc|]. split; [cbn; reflexivity|].
  split; [cbn; reflexivity|]. split; [cbn; apply py_last_snoc|].
  split; [cbn; reflexivity|].
  match goal with
  | |- (_ - _) * ?s = _ * (?a - _) =>
      transitivity ((a - y0) * s
                    - (h0 * (k0 * s + 0) + h1 * (k1 * s + 0)) * (a - y0))
  end.
  - ring.
  - rewrite K0, K1. ring.
Qed.

Lemma X6_residual_shrinks_witness :
  exists mu_f P_f s a mu' b,
    Spec.forecast_mean (M_matrix small) (Arr2 [[0]; [0]]) = Ok mu_f /\
    Spec.forecast_cov (M_matrix small) Main.I = Ok P_f /\
    Spec.innovation_cov (Main.H small) (Arr0 (Main.R small)) P_f
    = Ok (Arr2 [[s]]) /\
    matmul (Main.H small) mu_f = Ok (Arr2 [[a]]) /\
    py_last (Main.kalman_mus
               (snd (Main.kalman_body small (M_matrix small) [Arr1 [1]] 0
                       Main.kalman_init))) = Ok mu' /\
    matmul (Main.H small) mu' = Ok (Arr2 [[b]]) /\
    (b - 1) * s = Main.R small * (a - 1).
Proof.
  apply (X6_residual_shrinks small (M_matrix small) [Arr1 [1]] 0%nat
           Main.kalman_init _ (Arr2 [[0]; [0]]) Main.I 1).
  - reflexivity.
  - reflexivity.
  - reflexivity.
  - reflexivity.
  - reflexivity.
  - reflexivity.
  - reflexivity.
  - vm_compute. reflexivity.
Defined.

(** X7.  As coded, line 89 yields a gain with [K S = (H P_f^T)^T], that
    is [K S = P_f H^T], for every 2x2 covariance [P], symmetric or not,
    as long as [S] is not singular. *)
Theorem X7_gain_as_coded c m ys k st mu P y :
  Main.M c = Ok m ->
  has_shape (Main.H c) [1; 2]%nat = true ->
  py_last (Main.kalman_mus st) = Ok mu ->
  has_shape mu [2; 1]%nat = true ->
  py_last (Main.kalman_Ps st) = Ok P ->
  has_shape P [2; 2]%nat = true ->
  py_index ys k = Ok y ->
  has_shape y [1%nat] = true ->
  (forall P_f S,
     Spec.forecast_cov m P = Ok P_f ->
     Spec.innovation_cov (Main.H c) (Arr0 (Main.R c)) P_f = Ok S ->
     ~ singular S) ->
  exists P_f S mu' P' K,
    Spec.forecast_cov m P = Ok P_f /\
    Spec.innovation_cov (Main.H c) (Arr0 (Main.R c)) P_f = Ok S /\
    Main.kalman_body c m ys k st = (Ok tt, push st mu' P' K) /\
    gain_as_coded (Main.H c) P_f S K.
Proof.
  intros EM HH Lm Sm LP SP Iy Shy Reg.
  pose proof (M_shape c m EM) as Hm.
  destruct (forecast_shapes m mu P Hm Sm SP)
    as (mu_f & P_f & Fm & Sf & Fc & Sc).
  destruct (kalman_body_run c m ys k st mu P y mu_f P_f
              HH Lm LP Iy Shy Fm Sf Fc Sc)
    as (S & ES & _ & _ & Good).
  destruct (Good (Reg P_f S Fc ES)) as (mu' & P' & K & E & _ & _ & _ & G & _).
  exists P_f, S, mu', P', K. tauto.
Qed.

Lemma X7_gain_as_coded_witness :
  exists P_f S mu' P' K,
    Spec.forecast_cov (M_matrix small) (Arr2 [[1; qc 1 2]; [0; 1]])
    = Ok P_f /\
    Spec.innovation_cov (Main.H small) (Arr0 (Main.R small)) P_f = Ok S /\
    Main.kalman_body small (M_matrix small) [Arr1 [1]] 0
      {| Main.kalman_mus := [Arr2 [[0]; [0]]];
         Main.kalman_Ps := [Arr2 [[1; qc 1 2]; [0; 1]]];
         Main.kalman_gains := [] |}
    = (Ok tt,
       push {| Main.kalman_mus := [Arr2 [[0]; [0]]];
               Main.kalman_Ps := [Arr2 [[1; qc 1 2]; [0; 1]]];
               Main.kalman_gains := [] |} mu' P' K) /\
    gain_as_coded (Main.H small) P_f S K.
Proof.
  apply (X7_gain_as_coded small (M_matrix small) [Arr1 [1]] 0%nat _
           (Arr2 [[0]; [0]]) (Arr2 [[1; qc 1 2]; [0; 1]]) (Arr1 [1]));
    try reflexivity.
  intros P_f S E1 E2.
  vm_compute in E1. injection E1 as <-.
  vm_compute in E2. injection E2 as <-.
  intros [_ D]. apply (f_equal this) in D.
  vm_compute in D. discriminate.
Defined.

(** ** Running out of observations *)




(** ** The horizon *)

Lemma body_config_ext c c' m ys k st :
  Main.H c = Main.H c' ->
  Main.R c = Main.R c' ->
  Main.kalman_body c m ys k st = Main.kalman_body c' m ys k st.
Proof.
  intros EH ER. unfold Main.kalman_body. now rewrite EH, ER.
Qed.

Lemma body_keeps_Ps c m ys k st r st' j x :
  Main.kalman_body c m ys k st = (r, st') ->
  nth_error (Main.kalman_Ps st) j = Some x ->
  nth_error (Main.kalman_Ps st') j = Some x.
Proof.
  intros E Hj.
  pose proof (kalman_body_inv _ _ _ _ _ _ _ E) as I.
  destruct r as [[]|e].
  - destruct I as (mu & P & y & mu' & P' & K & _ & _ & _ & _ & ->).
    cbn. rewrite nth_error_app1; [exact Hj|].
    apply nth_error_Some. congruence.
  - destruct I as [_ ->]. exact Hj.
Qed.

(** X9.  The estimates do not depend on the horizon: if the run with
    [T] steps completes, a run with a larger step count (same [H], [R],
    [M] and observations) stores the same means and covariances at every
    index up to [T], whether or not it completes itself. *)
Theorem X9_horizon_independent c c' m ys st j :
  Main.H c = Main.H c' ->
  Main.R c = Main.R c' ->
  (Main.T c <= Main.T c')%Z ->
  Main.kalman_loop c m ys Main.kalman_init = (Ok tt, st) ->
  (j <= Z.to_nat (Main.T c))%nat ->
  let st' := snd (Main.kalman_loop c' m ys Main.kalman_init) in
  nth_error (Main.kalman_mus st') j = nth_error (Main.kalman_mus st) j /\
  nth_error (Main.kalman_Ps st') j = nth_error (Main.kalman_Ps st) j.
Proof.
  intros EH ER HT E Hj st'. subst st'.
  unfold Main.kalman_loop, range in *.
  set (n := Z.to_nat (Main.T c)) in *.
  replace (Z.to_nat (Main.T c'))
    with (n + (Z.to_nat (Main.T c') - n))%nat by (unfold n; lia).
  rewrite seq_app, for_each_app.
  rewrite (for_each_ext (Main.kalman_body c' m ys)
             (Main.kalman_body c m ys))
    by (intros; symmetry; now apply body_config_ext).
  rewrite E.
  destruct (linked_loop c m ys n 0 Main.kalman_init st
              (linked_init c m ys) eq_refl E) as [(L1 & L2 & _) L3].
  cbn in L3. rewrite L3 in L1, L2.
  destruct (nth_error (Main.kalman_mus st) j) as [x|] eqn:Nx;
    [|apply nth_error_None in Nx; lia].
  destruct (nth_error (Main.kalman_Ps st) j) as [p|] eqn:Np;
    [|apply nth_error_None in Np; lia].
  split.
  - apply (for_each_invariant
             (fun s => nth_error (Main.kalman_mus s) j = Some x));
      [|exact Nx].
    intros i s r s' Hs B. eapply body_keeps_mus; eassumption.
  - apply (for_each_invariant
             (fun s => nth_error (Main.kalman_Ps s) j = Some p));
      [|exact Np].
    intros i s r s' Hs B. eapply body_keeps_Ps; eassumption.
Qed.

Lemma X9_horizon_independent_witness :
  let long := {| Main.T := 3; Main.dt := Main.dt small;
                 Main.w := Main.w small; Main.xi := Main.xi small;
                 Main.H := Main.H small; Main.R := Main.R small |} in
  let ys := [Arr1 [1]; Arr1 [qc 1 2]; Arr1 [0]] in
  let st := snd (Main.kalman_loop small (M_matrix small) ys
                   Main.kalman_init) in
  let st' := snd (Main.kalman_loop long (M_matrix small) ys
                    Main.kalman_init) in
  nth_error (Main.kalman_mus st') 2 = nth_error (Main.kalman_mus st) 2 /\
  nth_error (Main.kalman_Ps st') 2 = nth_error (Main.kalman_Ps st) 2.
Proof.
  intros long ys st.
  apply (X9_horizon_independent small long (M_matrix small) ys st 2%nat).
  - reflexivity.
  - reflexivity.
  - vm_compute. discriminate.
  - vm_compute. reflexivity.
  - vm_compute. lia.
Defined.

(** ** The RMSE diagnostic *)

Lemma sequence_map_exists {X Y Z} (f : X -> res Y) (h : Z -> Y)
  (Q : Z -> Prop) (l : list X) :
  (forall k, In k l -> exists r, f k = Ok (h r) /\ Q r) ->
  exists rs,
    sequence (map f l) = Ok (map h rs) /\
    length rs = length l /\
    Forall Q rs.
Proof.
  induction l as [|k l IH]; intros Hl.
  - exists []. repeat split. constructor.
  - destruct (Hl k (or_introl eq_refl)) as (r & Er & Qr).
    destruct IH as (rs & Es & Ls & Qs).
    { intros k' Hk'. apply Hl. now right. }
    exists (r :: rs). cbn. rewrite Er, Es. cbn.
    split; [reflexivity|]. split; [now rewrite Ls|].
    now constructor.
Qed.

Lemma half_nonneg (t : Qc) : 0 <= t -> 0 <= qc 1 2 * t.
Proof. intros A. unfold qc. qc2q. lra. Qed.

Section SqrtArguments.

Variable np_sqrt : Qc -> Qc.

Lemma RMSEs_total c xs mus :
  Forall (fun x => has_shape x [2%nat] = true) xs ->
  Forall (fun mu => has_shape mu [2; 1]%nat = true) mus ->
  (Z.to_nat (Main.T c + 1) <= length xs)%nat ->
  (Z.to_nat (Main.T c + 1) <= length mus)%nat ->
  exists rs,
    Main.RMSEs np_sqrt c xs mus = Ok (map (fun r => Arr1 [np_sqrt r]) rs) /\
    length rs = Z.to_nat (Main.T c + 1) /\
    Forall (fun r => 0 <= r) rs.
Proof.
  intros Hxs Hmus Lx Lm. unfold Main.RMSEs, range.
  enough (Ex : exists rs,
             sequence (map (Main.RMSE_at np_sqrt xs mus)
                           (seq 0 (Z.to_nat (Main.T c + 1))))
             = Ok (map (fun r => Arr1 [np_sqrt r]) rs) /\
             length rs = length (seq 0 (Z.to_nat (Main.T c + 1))) /\
             Forall (fun r => 0 <= r) rs).
  { destruct Ex as (rs & E & L & F). rewrite length_seq in L.
    exists rs. tauto. }
  apply sequence_map_exists. intros k Hk. apply in_seq in Hk.
  destruct (nth_error xs k) as [x|] eqn:Nx;
    [|apply nth_error_None in Nx; lia].
  destruct (nth_error mus k) as [mu|] eqn:Nm;
    [|apply nth_error_None in Nm; lia].
  rewrite Forall_forall in Hxs, Hmus.
  pose proof (Hxs x (nth_error_In _ _ Nx)) as Sx.
  pose proof (Hmus mu (nth_error_In _ _ Nm)) as Sm.
  apply shape_vec2 in Sx as (a & b & ->).
  apply shape_mat21 in Sm as (p & q & ->).
  exists (qc 1 2 * ((a - p) * (a - p) + (b - q) * (b - q))).
  split.
  - unfold Main.RMSE_at, py_index. rewrite Nx, Nm. reflexivity.
  - apply half_nonneg. apply add_nonneg; apply square_nonneg.
Qed.

(** X11.  Lines 149-151: when there are at least [T + 1] true states of
    shape (2,) and [T + 1] means of shape (2, 1), the list [RMSEs] is
    built without error, has [T + 1] entries, and each entry is
    [np.sqrt(r)] (as an array of shape (1,)) for some [r >= 0]. *)
Theorem X11_rmse_radicand_nonnegative c xs mus :
  Forall (fun x => has_shape x [2%nat] = true) xs ->
  Forall (fun mu => has_shape mu [2; 1]%nat = true) mus ->
  (Z.to_nat (Main.T c + 1) <= length xs)%nat ->
  (Z.to_nat (Main.T c + 1) <= length mus)%nat ->
  exists rs,
    Main.RMSEs np_sqrt c xs mus = Ok (map (fun r => Arr1 [np_sqrt r]) rs) /\
    length rs = Z.to_nat (Main.T c + 1) /\
    Forall (fun r => 0 <= r) rs.
Proof. exact (RMSEs_total c xs mus). Qed.

End SqrtArguments.

Lemma X11_rmse_radicand_nonnegative_witness :
  exists rs,
    Main.RMSEs Stream.sqrt small
      [Arr1 [1; 0]; Arr1 [1; 1]; Arr1 [0; 1]]
      [Arr2 [[0]; [0]]; Arr2 [[1]; [0]]; Arr2 [[1]; [1]]]
    = Ok (map (fun r => Arr1 [Stream.sqrt r]) rs) /\
    length rs = Z.to_nat (Main.T small + 1) /\
    Forall (fun r => 0 <= r) rs.
Proof.
  apply (X11_rmse_radicand_nonnegative Stream.sqrt small).
  - repeat constructor.
  - repeat constructor.
  - vm_compute. lia.
  - vm_compute. lia.
Defined.

(** ** The figures *)

Lemma plt_scatter_same n : Main.plt_scatter n n = Ok tt.
Proof. unfold Main.plt_scatter. now rewrite Nat.eqb_refl. Qed.

Lemma np_size_units l :
  Forall (fun a => Main.size a = 1%nat) l -> Main.np_size l = length l.
Proof.
  unfold Main.np_size. induction 1 as [|a l Ha _ IH]; [reflexivity|].
  change (list_sum (map Main.size (a :: l)))
    with (Main.size a + list_sum (map Main.size l))%nat.
  now rewrite Ha, IH.
Qed.

Lemma Forall_firstn {X} (Q : X -> Prop) k : forall l,
  Forall Q l -> Forall Q (firstn k l).
Proof.
  induction k as [|k IH]; intros l Hl; [constructor|].
  destruct Hl as [|x l Hx Hl]; [constructor|].
  cbn. constructor; [exact Hx | now apply IH].
Qed.

Lemma Forall_slice_to {X} (Q : X -> Prop) (l : list X) e :
  Forall Q l -> Forall Q (slice_to l e).
Proof.
  intros Hl. unfold slice_to.
  destruct (0 <=? e)%Z; now apply Forall_firstn.
Qed.

Lemma slice_to_length {X} (l : list X) e :
  (0 <= e)%Z -> (Z.to_nat e <= length l)%nat ->
  length (slice_to l e) = Z.to_nat e.
Proof.
  intros He Hl. unfold slice_to.
  destruct (0 <=? e)%Z eqn:B; [|apply Z.leb_gt in B; lia].
  rewrite length_firstn. lia.
Qed.

Lemma components_units i l :
  (forall a, In a l ->
     exists z, getitem a i = Ok z /\ Main.size z = 1%nat) ->
  exists zs,
    Main.components i l = Ok zs /\
    length zs = length l /\
    Forall (fun z => Main.size z = 1%nat) zs.
Proof.
  intros Hl. unfold Main.components.
  destruct (sequence_map_exists (fun a => getitem a i) (fun z => z)
              (fun z => Main.size z = 1%nat) l Hl) as (rs & E & L & U).
  exists rs. rewrite map_id in E. tauto.
Qed.

Lemma components_vectors i l :
  (i < 2)%nat ->
  Forall (fun a => has_shape a [2%nat] = true) l ->
  exists zs,
    Main.components i l = Ok zs /\
    length zs = length l /\
    Forall (fun z => Main.size z = 1%nat) zs.
Proof.
  intros Hi Hl. apply components_units. intros a Ha.
  rewrite Forall_forall in Hl.
  destruct (shape_vec2 a (Hl a Ha)) as (p & q & ->).
  destruct i as [|[|i]]; [| |lia]; eexists; split; reflexivity.
Qed.

Lemma components_columns i l :
  (i < 2)%nat ->
  Forall (fun a => has_shape a [2; 1]%nat = true) l ->
  exists zs,
    Main.components i l = Ok zs /\
    length zs = length l /\
    Forall (fun z => Main.size z = 1%nat) zs.
Proof.
  intros Hi Hl. apply components_units. intros a Ha.
  rewrite Forall_forall in Hl.
  destruct (shape_mat21 a (Hl a Ha)) as (p & q & ->).
  destruct i as [|[|i]]; [| |lia]; eexists; split; reflexivity.
Qed.

Lemma observations_units ys :
  observations ys -> Forall (fun y => Main.size y = 1%nat) ys.
Proof.
  unfold observations. apply Forall_impl. intros y Hy.
  apply shape_vec1 in Hy as (v & ->). reflexivity.
Qed.

Lemma times_length c :
  length (Main.times c) = Z.to_nat (Main.n * Main.T c + 1).
Proof. unfold Main.times, range. now rewrite length_map, length_seq. Qed.

Section Figures.

Variable rng : Type.
Variable np_random_multivariate_normal :
  ndarray -> ndarray -> rng -> ndarray * rng.
Variable np_random_normal : Qc -> Qc -> rng -> Qc * rng.
Variable np_sqrt : Qc -> Qc.

Let x0 := Main.x0 rng np_random_multivariate_normal.
Let main :=
  Main.main rng np_random_multivariate_normal np_random_normal np_sqrt.

Lemma cov_traces_total Ps :
  Forall (fun P => has_shape P [2; 2]%nat = true) Ps ->
  exists ts, Main.cov_traces np_sqrt Ps = Ok ts /\ length ts = length Ps.
Proof.
  intros HP. unfold Main.cov_traces.
  destruct (sequence_map_exists
              (fun P => t <- Main.np_trace P ;; Ok (np_sqrt (qc 1 2 * t)))
              (fun t => t) (fun _ => True) Ps) as (ts & E & L & _).
  - intros P Hin. rewrite Forall_forall in HP.
    destruct (shape_mat22 P (HP P Hin)) as (a & b & c & d & ->).
    eexists. split; [reflexivity | exact Logic.I].
  - exists ts. rewrite map_id in E. now split.
Qed.

(** X12.  For [T >= 0], a row [H] of shape (1, 2) and an initial state of
    shape (2,), nothing around the Kalman loop fails: the trajectory and
    the measurements are built, every list behind a figure is built, and
    every call of [plt.scatter] gets two arguments of the same size.  The
    script ends as its Kalman loop ends: if the loop completes the script
    completes, with [T + 1] entries in [RMSEs], and if the loop raises,
    that exception is the script's. *)
Theorem X12_script_ends_as_loop c m g :
  Main.M c = Ok m ->
  (0 <= Main.T c)%Z ->
  has_shape (Main.H c) [1; 2]%nat = true ->
  has_shape (fst (x0 g)) [2%nat] = true ->
  exists xs ys,
    Main.true_xs c m (fst (x0 g)) = Ok xs /\
    fst (Main.synth_ys rng np_random_normal np_sqrt c xs (snd (x0 g)))
    = Ok ys /\
    (forall st,
       Main.kalman_loop c m ys Main.kalman_init = (Ok tt, st) ->
       exists rm,
         main c g = Ok {| Main.r_true_xs := xs; Main.r_synth_ys := ys;
                          Main.r_kalman := st; Main.r_RMSEs := rm |} /\
         length rm = S (Z.to_nat (Main.T c))) /\
    (forall e st,
       Main.kalman_loop c m ys Main.kalman_init = (Raise e, st) ->
       main c g = Raise e).
Proof.
  intros EM HT HH Hx. unfold main, Main.main, x0 in *.
  destruct (Main.x0 rng np_random_multivariate_normal g) as [x g1].
  cbn [fst snd] in *. rewrite EM. cbn [rbind].
  pose proof (M_shape c m EM) as Hm.
  destruct m as [?|?|rows]; try discriminate.
  destruct x as [?|v|?]; try discriminate.
  assert (Lv : length v = 2%nat) by now apply Nat.eqb_eq.
  destruct (shape_square22 rows Hm) as [Sq L2].
  set (N := Z.to_nat (Main.n * Main.T c)).
  unfold Main.true_xs. fold N.
  rewrite (true_xs_loop_orbit rows _ [] v) by congruence.
  cbn [rbind app].
  set (all := map (orbit rows v) (seq 0 (S N))).
  assert (Hall : Forall (fun a => has_shape a [2%nat] = true) all).
  { apply Forall_forall. intros a Ha. apply in_map_iff in Ha.
    destruct Ha as (k & <- & _). unfold orbit. cbn.
    rewrite orbit_length by congruence. now rewrite L2. }
  assert (Lall : length all = S N).
  { unfold all. now rewrite length_map, length_seq. }
  destruct (components_vectors 0 all ltac:(lia) Hall) as (zs & Ez & Lz & Uz).
  destruct (components_vectors 1 all ltac:(lia) Hall)
    as (zts & Ezt & Lzt & Uzt).
  assert (Lt : length (Main.times c) = S N).
  { rewrite times_length. unfold N, Main.n. lia. }
  rewrite Ez, Ezt. cbn [rbind].
  rewrite (np_size_units zs Uz), (np_size_units zts Uzt), Lz, Lzt, Lall, Lt.
  rewrite plt_scatter_same. cbn [rbind].
  set (n := Z.to_nat (Main.T c)).
  assert (Hn : Z.to_nat (Main.T c + 1) = S n) by (unfold n; lia).
  assert (Le : (S n <= S N)%nat) by (unfold n, N, Main.n; lia).
  set (xs := slice_to all (Main.T c + 1)).
  assert (Hxs : Forall (fun a => has_shape a [2%nat] = true) xs)
    by now apply Forall_slice_to.
  assert (Lxs : length xs = S n).
  { unfold xs. rewrite slice_to_length; lia. }
  destruct (synth_ys_total rng np_random_normal np_sqrt c xs g1 HH Hxs)
    as (ys & Ey & Ly & Oy).
  exists xs, ys. split; [reflexivity|].
  rewrite Ey. cbn [fst rbind]. split; [reflexivity|].
  assert (Sz : Main.np_size (slice_to zs (Main.T c + 1)) = S n).
  { rewrite np_size_units by now apply Forall_slice_to.
    rewrite slice_to_length; lia. }
  assert (Szt : Main.np_size (slice_to zts (Main.T c + 1)) = S n).
  { rewrite np_size_units by now apply Forall_slice_to.
    rewrite slice_to_length; lia. }
  assert (St : length (slice_to (Main.times c) (Main.T c + 1)) = S n).
  { rewrite slice_to_length; lia. }
  rewrite (np_size_units ys (observations_units ys Oy)), Ly, Lxs, Sz, Szt, St.
  rewrite plt_scatter_same. cbn [rbind].
  split.
  - intros st E. rewrite E.
    destruct (well_shaped_run c (Arr2 rows) ys st Hm HH Oy E)
      as (W1 & W2 & W3).
    unfold Main.kalman_loop, range in E. fold n in E.
    destruct (linked_loop c (Arr2 rows) ys n 0 Main.kalman_init st
                (linked_init c (Arr2 rows) ys) eq_refl E)
      as [(L1 & L2' & _) L3].
    cbn in L3. rewrite L3 in L1, L2'.
    destruct (components_columns 0 _ ltac:(lia) W1) as (kz & Ekz & Lkz & Ukz).
    destruct (components_columns 1 _ ltac:(lia) W1)
      as (kzt & Ekzt & Lkzt & Ukzt).
    destruct (components_columns 0 _ ltac:(lia) W3) as (k0 & Ek0 & Lk0 & Uk0).
    destruct (components_columns 1 _ ltac:(lia) W3) as (k1 & Ek1 & Lk1 & Uk1).
    destruct (RMSEs_total np_sqrt c xs (Main.kalman_mus st) Hxs W1
                ltac:(lia) ltac:(lia)) as (rs & Er & Lr & _).
    destruct (cov_traces_total (Main.kalman_Ps st) W2) as (ts & Et & Lts).
    rewrite Ekz, Ekzt. cbn [rbind].
    rewrite (np_size_units kz Ukz), (np_size_units kzt Ukzt), Lkz, Lkzt, L1.
    rewrite plt_scatter_same. cbn [rbind].
    rewrite Ek0, Ek1. cbn [rbind].
    rewrite (np_size_units k0 Uk0), (np_size_units k1 Uk1), Lk0, Lk1, L3.
    unfold slice_from_1. rewrite length_skipn, St.
    replace (S n - 1)%nat with n by lia.
    rewrite plt_scatter_same. cbn [rbind].
    rewrite Er. cbn [rbind].
    rewrite np_size_units, length_map, Lr, Hn
      by (apply Forall_map, Forall_forall; reflexivity).
    rewrite plt_scatter_same. cbn [rbind].
    rewrite Et. cbn [rbind]. rewrite Lts, L2', plt_scatter_same.
    cbn [rbind]. eexists. split; [reflexivity|].
    now rewrite length_map, Lr.
  - intros e st E. now rewrite E.
Qed.

(** X13.  With [T < 0] the script stops at its first figure: the
    trajectory loop does not run, [times] is empty and [true_zs] holds
    the one position of [x0], so [plt.scatter] of line 37 raises
    [ValueError], which ends the script. *)
Theorem X13_negative_horizon c g :
  (Main.T c < 0)%Z ->
  has_shape (fst (x0 g)) [2%nat] = true ->
  main c g = Raise ValueError.
Proof.
  intros HT Hx. unfold main, Main.main, x0 in *.
  destruct (Main.x0 rng np_random_multivariate_normal g) as [x g1].
  cbn [fst] in Hx. apply shape_vec2 in Hx as (a & b & ->).
  rewrite M_value. cbn [rbind].
  replace (Z.to_nat (Main.n * Main.T c)) with 0%nat
    by (unfold Main.n; lia).
  cbn [Main.true_xs_loop rbind].
  assert (Lt : length (Main.times c) = 0%nat).
  { rewrite times_length. unfold Main.n. lia. }
  rewrite Lt. reflexivity.
Qed.

End Figures.

Lemma X12_script_ends_as_loop_witness :
  let g := [1; qc 2 1; qc 1 2; qc (-1) 2; qc 1 4] in
  exists xs ys,
    Main.true_xs small (M_matrix small) (fst (Stream.x0 g)) = Ok xs /\
    fst (Stream.synth_ys small xs (snd (Stream.x0 g))) = Ok ys /\
    (forall st,
       Main.kalman_loop small (M_matrix small) ys Main.kalman_init
       = (Ok tt, st) ->
       exists rm,
         Stream.main small g =
         Ok {| Main.r_true_xs := xs; Main.r_synth_ys := ys;
               Main.r_kalman := st; Main.r_RMSEs := rm |} /\
         length rm = S (Z.to_nat (Main.T small))) /\
    (forall e st,
       Main.kalman_loop small (M_matrix small) ys Main.kalman_init
       = (Raise e, st) ->
       Stream.main small g = Raise e).
Proof.
  intros g.
  apply (X12_script_ends_as_loop Stream.rng Stream.multivariate_normal
           Stream.normal Stream.sqrt small (M_matrix small) g).
  - reflexivity.
  - vm_compute. discriminate.
  - reflexivity.
  - reflexivity.
Defined.

Lemma X13_negative_horizon_witness :
  Stream.main nonsense [1; 0; qc 1 2] = Raise ValueError.
Proof.
  apply (X13_negative_horizon Stream.rng Stream.multivariate_normal
           Stream.normal Stream.sqrt nonsense).
  - vm_compute. reflexivity.
  - reflexivity.
Defined.
